(** * archive: filename-based archive type detection and archive walkers

    A shallow embedding of the Go package [archive] (file [archive.go]):
    the [Type] enumeration, the package-level table [typeInfoMap] filled by
    [init], [makeRegex], [DetermineType], the five walkers and [readTar].

    Go strings are byte sequences; they are modelled by [string], whose
    characters are 8-bit [ascii] values.  The library functions the package
    calls ([strings.Join], [strings.Replace], [fmt.Sprintf],
    [strings.ToLower], [regexp.MustCompile], [FindStringSubmatch]) are
    modelled in the first part of the file for the inputs the package feeds
    them. *)

From Stdlib Require Import Ascii NArith ZArith.
From stdpp Require Import base tactics option list sorting strings gmap fin_maps.

Local Open Scope N_scope.

(** ** Go strings *)

Module GoString.

(** [strings.Join(elems, sep)]. *)
Fixpoint Join (elems : list string) (sep : string) : string :=
  match elems with
  | [] => ""
  | [e] => e
  | e :: rest => e +:+ sep +:+ Join rest sep
  end.

(** [strings.HasPrefix(s, prefix)]. *)
Fixpoint HasPrefix (s prefix : string) {struct prefix} : bool :=
  match prefix, s with
  | "", _ => true
  | String p prefix', String c s' =>
      if decide (p = c) then HasPrefix s' prefix' else false
  | String _ _, "" => false
  end.

(** [strings.HasSuffix(s, suffix)]: some tail of [s] is [suffix]. *)
Fixpoint HasSuffix (s suffix : string) : bool :=
  bool_decide (s = suffix)
  || match s with
     | "" => false
     | String _ s' => HasSuffix s' suffix
     end.

(** [strings.Replace(s, old, new, n)] for a non-empty [old]: the first
    [n] non-overlapping occurrences of [old], scanning from the left, are
    replaced by [new]; a negative [n] means no limit.  [skip] counts the
    bytes of a matched occurrence still to be dropped and [budget] the
    replacements still allowed ([None]: unlimited). *)
Fixpoint Replace_go (old new : string) (skip : nat) (budget : option nat)
    (s : string) : string :=
  match s with
  | "" => ""
  | String c s' =>
      match skip with
      | S k => Replace_go old new k budget s'
      | O =>
          if HasPrefix s old && negb (bool_decide (budget = Some O))
          then new +:+ Replace_go old new (pred (String.length old))
                         (pred <$> budget) s'
          else String c (Replace_go old new O budget s')
      end
  end.

Definition Replace (s old new : string) (n : Z) : string :=
  match old with
  | "" => s (* the package never passes an empty [old] *)
  | _ => Replace_go old new O
           (if decide (n < 0)%Z then None else Some (Z.to_nat n)) s
  end.

(** [fmt.Sprintf(format, arg)] for one string operand: the first [%s] or
    [%v] verb is replaced by the operand, [%%] prints a percent sign.
    [used] records that the operand has been consumed; a later verb
    prints Go's missing-operand marker. *)
Fixpoint Sprintf_go (used : bool) (arg : string) (format : string) : string :=
  match format with
  | "" => ""
  | String c rest =>
      if decide (c = "%"%char) then
        match rest with
        | "" => "%!(NOVERB)"
        | String v rest' =>
            if decide (v = "%"%char) then String "%" (Sprintf_go used arg rest')
            else if bool_decide (v = "s"%char) || bool_decide (v = "v"%char)
            then (if used then "%!" +:+ String v "(MISSING)" else arg)
                   +:+ Sprintf_go true arg rest'
            else String "%" (String v (Sprintf_go used arg rest'))
        end
      else String c (Sprintf_go used arg rest)
  end.

Definition Sprintf (format arg : string) : string := Sprintf_go false arg format.

(** *** [strings.ToLower] *)

Definition byte (c : ascii) : N := N_of_ascii c.

(** [c >= utf8.RuneSelf] fails: the byte is a one-byte (ASCII) rune. *)
Definition isASCIIbyte (c : ascii) : bool := byte c <? 128.

Definition isUpper (c : ascii) : bool := (65 <=? byte c) && (byte c <=? 90).

Fixpoint isASCII (s : string) : bool :=
  match s with
  | "" => true
  | String c s' => isASCIIbyte c && isASCII s'
  end.

Fixpoint hasUpper (s : string) : bool :=
  match s with
  | "" => false
  | String c s' => isUpper c || hasUpper s'
  end.

(** [c += 'a' - 'A'] on the upper-case letters. *)
Definition lowerByte (c : ascii) : ascii :=
  if isUpper c then ascii_of_N (byte c + 32) else c.

Fixpoint lowerASCII (s : string) : string :=
  match s with
  | "" => ""
  | String c s' => String (lowerByte c) (lowerASCII s')
  end.

(** [strings.ToLower]: strings made of ASCII bytes only are lowered byte
    by byte (and returned as they are when they hold no upper-case
    letter); any other string goes through
    [strings.Map(unicode.ToLower, s)], which depends on the Unicode
    tables and is a parameter here. *)
Definition ToLower (MapToLower : string → string) (s : string) : string :=
  if isASCII s then
    if hasUpper s then lowerASCII s else s
  else MapToLower s.

End GoString.

(** ** The [regexp] fragment used by the package

    [makeRegex] produces patterns built from literal bytes, escaped
    punctuation, one capturing group, alternation and the end-of-text
    assertion.  The patterns hold ASCII bytes only, and an ASCII byte is
    never part of a multi-byte rune, so matching byte by byte agrees with
    Go's rune-by-rune matching on them. *)

Module Regexp.

Inductive Regexp : Type :=
| EmptyMatch
| Literal (c : ascii)
| EndText
| Concat (r1 r2 : Regexp)
| Alternate (r1 r2 : Regexp)
| Capture (r : Regexp).

(** A parser frame: the alternatives already closed by a [|] and the
    atoms of the current concatenation, both most recent first. *)
Record frame := Frame { alts : list Regexp; atoms : list Regexp }.

Definition emptyFrame : frame := Frame [] [].

Definition concatOf (atoms_rev : list Regexp) : Regexp :=
  match atoms_rev with
  | [] => EmptyMatch
  | last :: before => fold_left (λ acc a, Concat a acc) before last
  end.

Definition closeFrame (fr : frame) : Regexp :=
  fold_left (λ acc a, Alternate a acc) (alts fr) (concatOf (atoms fr)).

Definition pushAtom (fr : frame) (r : Regexp) : frame :=
  Frame (alts fr) (r :: atoms fr).

Definition nextAlt (fr : frame) : frame :=
  Frame (concatOf (atoms fr) :: alts fr) [].

(** Bytes with a meaning of their own in a pattern. *)
Definition isMeta (c : ascii) : bool :=
  bool_decide (c ∈ String.list_ascii_of_string "\.+*?()|[]{}^$").

(** [\c] is a literal [c] for ASCII punctuation. *)
Definition isPunct (c : ascii) : bool :=
  let n := N_of_ascii c in
  ((33 <=? n) && (n <=? 47)) || ((58 <=? n) && (n <=? 64))
  || ((91 <=? n) && (n <=? 96)) || ((123 <=? n) && (n <=? 126)).

(** The parser, with the stack of the enclosing groups.  [None]: the
    pattern is malformed, or uses an operator outside the fragment. *)
Fixpoint parse (stack : list frame) (top : frame) (s : string) : option Regexp :=
  match s with
  | "" => match stack with [] => Some (closeFrame top) | _ => None end
  | String c rest =>
      if decide (c = "("%char) then parse (top :: stack) emptyFrame rest
      else if decide (c = ")"%char) then
        match stack with
        | [] => None
        | parent :: stack' =>
            parse stack' (pushAtom parent (Capture (closeFrame top))) rest
        end
      else if decide (c = "|"%char) then parse stack (nextAlt top) rest
      else if decide (c = "$"%char) then parse stack (pushAtom top EndText) rest
      else if decide (c = "\"%char) then
        match rest with
        | "" => None
        | String e rest' =>
            if isPunct e then parse stack (pushAtom top (Literal e)) rest'
            else None
        end
      else if isMeta c then None
      else parse stack (pushAtom top (Literal c)) rest
  end.

(** [regexp.Compile]. *)
Definition Compile (expr : string) : option Regexp := parse [] emptyFrame expr.

(** Number of capturing groups. *)
Fixpoint NumSubexp (r : Regexp) : nat :=
  match r with
  | EmptyMatch | Literal _ | EndText => 0%nat
  | Concat r1 r2 | Alternate r1 r2 => (NumSubexp r1 + NumSubexp r2)%nat
  | Capture r => S (NumSubexp r)
  end.

(** The first [n] bytes of [s]. *)
Fixpoint take (n : nat) (s : string) : string :=
  match n, s with
  | S k, String c s' => String c (take k s')
  | _, _ => ""
  end.

(** All the ways [r] matches a prefix of [s], in the order a backtracking
    matcher tries them: the text left after the match and the text of
    each capturing group (empty for a group that took no part). *)
Fixpoint matchHere (r : Regexp) (s : string) : list (string * list string) :=
  match r with
  | EmptyMatch => [(s, [])]
  | Literal c =>
      match s with
      | String c' s' => if decide (c = c') then [(s', [])] else []
      | "" => []
      end
  | EndText => match s with "" => [("", [])] | _ => [] end
  | Concat r1 r2 =>
      '(s1, caps1) ← matchHere r1 s;
      '(s2, caps2) ← matchHere r2 s1;
      [(s2, caps1 ++ caps2)]
  | Alternate r1 r2 =>
      ((λ '(s1, caps), (s1, caps ++ replicate (NumSubexp r2) "")) <$> matchHere r1 s)
      ++ ((λ '(s2, caps), (s2, replicate (NumSubexp r1) "" ++ caps)) <$> matchHere r2 s)
  | Capture r1 =>
      (λ '(s1, caps),
         (s1, take (String.length s - String.length s1) s :: caps)) <$> matchHere r1 s
  end.

(** [re.FindStringSubmatch(s)]: the leftmost match, as the matched text
    followed by the text of the capturing groups; the empty slice when
    the pattern matches nowhere. *)
Fixpoint FindStringSubmatch (re : Regexp) (s : string) : list string :=
  match matchHere re s with
  | (rest, caps) :: _ => take (String.length s - String.length rest) s :: caps
  | [] =>
      match s with
      | "" => []
      | String _ s' => FindStringSubmatch re s'
      end
  end.

(** The shape of the patterns of [makeRegex]: the bytes of a suffix in
    sequence, the suffixes as alternatives inside one group, then the end
    of the text. *)
Fixpoint lits (e : string) : Regexp :=
  match e with
  | "" => EmptyMatch
  | String c "" => Literal c
  | String c e' => Concat (Literal c) (lits e')
  end.

Fixpoint altsOf (rs : list Regexp) : Regexp :=
  match rs with
  | [] => EmptyMatch
  | [r] => r
  | r :: rs' => Alternate r (altsOf rs')
  end.

Definition suffixPattern (exts : list string) : Regexp :=
  Concat (Capture (altsOf (lits <$> exts))) EndText.

(** The texts left by the matches of [r] at the start of [s]. *)
Definition rests (r : Regexp) (s : string) : list string := (matchHere r s).*1.

End Regexp.

(** ** The package *)

Import GoString.

(** [type Type uint], with the constants [iota + 1]; [0] is the zero value,
    the one [DetermineType] returns next to [ErrUnknownType]. *)
Definition Type_ : Type := N.

Definition Tar : Type_ := 1.
Definition TarBz2 : Type_ := 2.
Definition TarGz : Type_ := 3.
Definition TarXz : Type_ := 4.
Definition Zip : Type_ := 5.

(** [func (t Type) String() string]. *)
Definition String_ (t : Type_) : string :=
  if decide (t = Tar) then "Tar"
  else if decide (t = TarBz2) then "TarBz2"
  else if decide (t = TarGz) then "TarGz"
  else if decide (t = TarXz) then "TarXz"
  else if decide (t = Zip) then "Zip"
  else "".

(** Go [error] values: the sentinels the package compares against or
    returns, the values built by [fmt.Errorf] (no [%w] verb: a plain
    message), and the values that come from elsewhere (the operating
    system, a decoder, a callback), told apart by an identity. *)
Inductive error : Type :=
| io_EOF
| ErrUnknownType
| errorString (msg : string)
| foreign (id : N) (msg : string).

Global Instance error_eq_dec : EqDecision error.
Proof. solve_decision. Defined.

(** The [Error() string] method. *)
Definition Error (e : error) : string :=
  match e with
  | io_EOF => "EOF"
  | ErrUnknownType => "archive: unable to determine type"
  | errorString msg => msg
  | foreign _ msg => msg
  end.

Definition fmtErrArchiveOpen : string := "archive: failed to open archive: %v".
Definition fmtErrNewGzReader : string := "archive: failed to gz reader: %v".
Definition fmtErrNewXzReader : string := "archive: failed to xz reader: %v".

(** [fmt.Errorf(format, err)] with a [%v] verb: the message of [err] is
    printed into the format and a new error holds the text. *)
Definition fmt_Errorf (format : string) (err : error) : error :=
  errorString (Sprintf format (Error err)).

(** [type typeInfo struct]. *)
Record typeInfo : Type := TypeInfo { extensions : list string; regex : string }.

Global Instance typeInfo_eq_dec : EqDecision typeInfo.
Proof. solve_decision. Defined.

(** [func makeRegex(extensions []string) (regex string)]. *)
Definition makeRegex (extensions : list string) : string :=
  let regex := Join extensions "|" in
  let regex := Replace regex "." "\." (-1) in
  let regex := Sprintf "(%s)$" regex in
  regex.

(** The body of the loop of [DetermineType] over the pairs [range] yields,
    in the order it yields them, on the lowered filename [f].  The result
    holds the types whose pattern was tried, in order, and what the
    function returns; [None] stands for the panic of [regexp.MustCompile]. *)
Fixpoint DetermineType_range (f : string) (pairs : list (Type_ * typeInfo))
    : list Type_ * option (Type_ * option error) :=
  match pairs with
  | [] => ([], Some (0, Some ErrUnknownType))
  | (archType, info) :: rest =>
      let info :=
        if decide (regex info = "")
        then TypeInfo (extensions info) (makeRegex (extensions info))
        else info in
      match Regexp.Compile (regex info) with
      | None => ([archType], None)
      | Some re =>
          let m := Regexp.FindStringSubmatch re f in
          if decide (length m ≠ 0%nat) then ([archType], Some (archType, None))
          else
            let '(tried, result) := DetermineType_range f rest in
            (archType :: tried, result)
      end
  end.

(** ** Notions used to state the properties *)

(** The pairs [init] stores, in the order of its assignments. *)
Definition init_table : list (Type_ * typeInfo) :=
  [ (Tar, TypeInfo [".tar"] "");
    (TarBz2, TypeInfo [".tar.bz2"; ".tar.bzip2"; ".tbz"; ".tbz2"] "");
    (TarGz, TypeInfo [".tar.gz"; ".tgz"] "");
    (TarXz, TypeInfo [".tar.xz"; ".txz"] "");
    (Zip, TypeInfo [".zip"] "") ].

(** The order in which the types are declared. *)
Definition declared_order : list Type_ := [Tar; TarBz2; TarGz; TarXz; Zip].

(** The suffix table as the documentation of the package lists it: each
    recognised suffix with its type. *)
Definition suffix_table : list (Type_ * string) :=
  [ (Tar, ".tar");
    (TarBz2, ".tar.bz2"); (TarBz2, ".tar.bzip2"); (TarBz2, ".tbz"); (TarBz2, ".tbz2");
    (TarGz, ".tar.gz"); (TarGz, ".tgz");
    (TarXz, ".tar.xz"); (TarXz, ".txz");
    (Zip, ".zip") ].

(** [f] ends in one of the suffixes of [info]. *)
Definition matches (f : string) (info : typeInfo) : bool :=
  existsb (HasSuffix f) (extensions info).

(** No suffix of the table is the tail of a suffix of another type. *)
Definition conflict_free (table : list (Type_ * string)) : bool :=
  forallb (λ '(T1, s1),
    forallb (λ '(T2, s2),
      bool_decide (T1 = T2) || negb (HasSuffix s1 s2 || HasSuffix s2 s1)) table) table.

(** A pair of the table as the loop of [DetermineType] needs it: no
    pattern cached, and the pattern [makeRegex] builds compiles to the
    expected shape. *)
Definition well_formed (p : Type_ * typeInfo) : Prop :=
  regex p.2 = "" ∧ extensions p.2 ≠ [] ∧
  Regexp.Compile (makeRegex (extensions p.2)) = Some (Regexp.suffixPattern (extensions p.2)).

(** Two orders a [range] over the table may take: by increasing and by
    decreasing type. *)
Definition type_le (p q : Type_ * typeInfo) : Prop := (p.1 ≤ q.1)%N.

Global Instance type_le_dec : RelDecision type_le.
Proof. intros p q. unfold type_le. apply _. Defined.

Definition ascending (m : gmap Type_ typeInfo) : list (Type_ * typeInfo) :=
  merge_sort type_le (map_to_list m).
Definition descending (m : gmap Type_ typeInfo) : list (Type_ * typeInfo) :=
  reverse (ascending m).

(** How a caller tells the errors of the walkers apart: by the text the
    format puts before the cause. *)
Inductive errorClass : Type :=
| OpenFailure
| GzReaderFailure
| XzReaderFailure
| OtherError.

Definition classify (e : error) : errorClass :=
  let msg := Error e in
  if HasPrefix msg "archive: failed to open archive: " then OpenFailure
  else if HasPrefix msg "archive: failed to gz reader: " then GzReaderFailure
  else if HasPrefix msg "archive: failed to xz reader: " then XzReaderFailure
  else OtherError.

(** The state in which a callback leaves what lies outside the package
    after it ran on all of [es] and returned [nil] each time; [None] when
    one of the calls returns an error. *)
Fixpoint thread {E U} (callback : E → U → U * option error) (es : list E) (u : U)
    : option U :=
  match es with
  | [] => Some u
  | e :: es' =>
      match callback e u with
      | (u', None) => thread callback es' u'
      | (_, Some _) => None
      end
  end.

Section Archive.

(** *** What the package takes from its environment *)

(** [strings.Map(unicode.ToLower, s)], the path of [strings.ToLower] for
    strings with a byte outside ASCII. *)
Context (MapToLower : string → string).

(** What lies outside the package and callbacks read and write (the
    variables of the caller, the file system); entries of tar archives
    ([*tar.Header]) and of zip archives ([*zip.File]); byte streams
    ([io.Reader]). *)
Context {UserState Header ZipFile Stream : Type}.

(** [os.Open]; the constructors of the decoders, [gzip.NewReader] and
    [xz.NewReader], which read and check a header and may fail, and
    [bzip2.NewReader], which does not read; the parsing of the central
    directory of a zip file, which [zip.OpenReader] runs on the opened
    file. *)
Context (os_Open : UserState → string → error + Stream).
Context (gzip_NewReader xz_NewReader : Stream → error + Stream).
Context (bzip2_NewReader : Stream → Stream).
Context (zip_readDirectory : Stream → error + list ZipFile).

(** A [*tar.Reader] on a finite stream: the headers [Next] will return,
    and the error it returns once they are used up ([io.EOF] at the end
    of a well-formed archive, the decoding error otherwise). *)
Record tar_Reader : Type := TarReader { pending : list Header; final : error }.

(** [tar.NewReader] reads nothing; what the reader built on a stream
    yields is a function of the stream. *)
Context (tar_NewReader : Stream → tar_Reader).

(** The method [Next] of a tar reader. *)
Definition Next (r : tar_Reader) : (error + Header) * tar_Reader :=
  match pending r with
  | [] => (inl (final r), r)
  | h :: rest => (inr h, TarReader rest (final r))
  end.

(** *** Program state *)

(** An entry handed to a callback. *)
Inductive entry : Type :=
| tarEntry (h : Header)
| zipEntry (f : ZipFile).

(** The package-level variable [typeInfoMap], the state of the caller,
    and the log of the callback invocations so far (oldest first). *)
Record world : Type := World {
  typeInfoMap : gmap Type_ typeInfo;
  user : UserState;
  calls : list entry
}.

(** Computations on the program state. *)
Definition M (A : Type) : Type := world → A * world.

Global Instance M_ret : MRet M := λ A a w, (a, w).
Global Instance M_bind : MBind M :=
  λ A B k m w, let '(a, w') := m w in k a w'.

Definition get_typeInfoMap : M (gmap Type_ typeInfo) := λ w, (typeInfoMap w, w).
Definition set_typeInfoMap (m : gmap Type_ typeInfo) : M unit :=
  λ w, (tt, World m (user w) (calls w)).
(** [typeInfoMap[k] = v]. *)
Definition assign_typeInfoMap (k : Type_) (v : typeInfo) : M unit :=
  m ← get_typeInfoMap; set_typeInfoMap (<[k := v]> m).

(** [func init()]. *)
Definition init : M unit :=
  set_typeInfoMap ∅;;
  assign_typeInfoMap Tar (TypeInfo [".tar"] "");;
  assign_typeInfoMap TarBz2
    (TypeInfo [".tar.bz2"; ".tar.bzip2"; ".tbz"; ".tbz2"] "");;
  assign_typeInfoMap TarGz (TypeInfo [".tar.gz"; ".tgz"] "");;
  assign_typeInfoMap TarXz (TypeInfo [".tar.xz"; ".txz"] "");;
  assign_typeInfoMap Zip (TypeInfo [".zip"] "").

(** The order in which [range] walks a map is not specified by Go and
    changes from one loop to the next: a [range] is modelled by the
    function [ρ] that lays the pairs of the map out in the order of that
    loop, any arrangement of the pairs of the map. *)
Definition range_order (ρ : gmap Type_ typeInfo → list (Type_ * typeInfo))
    (m : gmap Type_ typeInfo) : Prop :=
  ρ m ≡ₚ map_to_list m.

Global Instance range_order_dec ρ m : Decision (range_order ρ m).
Proof. unfold range_order. apply _. Defined.

(** [func DetermineType(filename string) (Type, error)], with the types
    tried. *)
Definition DetermineType_traced (ρ : gmap Type_ typeInfo → list (Type_ * typeInfo))
    (filename : string) : M (list Type_ * option (Type_ * option error)) :=
  let f := ToLower MapToLower filename in
  m ← get_typeInfoMap;
  mret (DetermineType_range f (ρ m)).

Definition DetermineType (ρ : gmap Type_ typeInfo → list (Type_ * typeInfo))
    (filename : string) : M (option (Type_ * option error)) :=
  r ← DetermineType_traced ρ filename; mret r.2.

(** *** Walkers *)

(** The function type [TarCallback], from a tar reader and a header to an
    error.  The reader is the one the loop of [readTar] advances, handed
    over by pointer.  Through it the callback reads the body of the
    entry, which leaves the headers to come as they are; it may as well
    call [Next] on it, and the loop then skips an entry, or put another
    reader in its place through the pointer.  So a callback takes the
    reader as the loop hands it over and gives it back as it leaves it.
    Besides, it acts on what lies outside the package and returns [nil]
    ([None]) or an error. *)
Definition TarCallback : Type :=
  tar_Reader → Header → UserState → tar_Reader * UserState * option error.

(** The function type [ZipCallback], from a zip file to an error: the
    callback acts on what lies outside the package and returns [nil] or
    an error; the slice the loop of [WalkZip] ranges over is out of its
    reach. *)
Definition ZipCallback : Type := ZipFile → UserState → UserState * option error.

(** A call of a callback on an entry; the log records it. *)
Definition invoke {E} (log : E → entry) (callback : E → UserState → UserState * option error)
    (e : E) : M (option error) :=
  λ w, let '(u, err) := callback e (user w) in
       (err, World (typeInfoMap w) u (calls w ++ [log e])).

(** A call of a tar callback on the reader and a header; the log records
    it, and the reader comes back as the callback leaves it. *)
Definition invokeTar (callback : TarCallback) (reader : tar_Reader) (header : Header)
    : M (tar_Reader * option error) :=
  λ w, let '(reader', u, err) := callback reader header (user w) in
       ((reader', err), World (typeInfoMap w) u (calls w ++ [tarEntry header])).

Definition get_user : M UserState := λ w, (user w, w).

(** [zip.OpenReader]: opens the file, then reads its central directory. *)
Definition zip_OpenReader (name : string) : M (error + list ZipFile) :=
  u ← get_user;
  match os_Open u name with
  | inl err => mret (inl err)
  | inr f => mret (zip_readDirectory f)
  end.

(** The loop [for _, f := range r.File] of [WalkZip]. *)
Fixpoint WalkZip_range (files : list ZipFile) (callback : option ZipCallback)
    : M (option error) :=
  match files with
  | [] => mret None
  | f :: rest =>
      match callback with
      | Some cb =>
          err ← invoke zipEntry cb f;
          match err with
          | Some err => mret (Some err)
          | None => WalkZip_range rest callback
          end
      | None => WalkZip_range rest callback
      end
  end.

(** [func WalkZip(archivePath string, callback ZipCallback) error]. *)
Definition WalkZip (archivePath : string) (callback : option ZipCallback)
    : M (option error) :=
  r ← zip_OpenReader archivePath;
  match r with
  | inl err => mret (Some (fmt_Errorf fmtErrArchiveOpen err))
  | inr files => WalkZip_range files callback
  end.

(** A callback that puts the reader back where it was makes the loop of
    [readTar] go on for ever.  What a call of a tar walker has done once
    a given number of turns of that loop are over: it has returned, [nil]
    or an error, or the loop goes on. *)
Inductive outcome : Type :=
| Returned (err : option error)
| Running.

Global Instance outcome_eq_dec : EqDecision outcome.
Proof. solve_decision. Defined.

(** [func readTar(reader *tar.Reader, callback TarCallback) error], for
    [turns] turns of its loop at most; with what the call returns comes
    the reader as the call leaves it. *)
Fixpoint readTar (turns : nat) (reader : tar_Reader) (callback : option TarCallback)
    : M (outcome * tar_Reader) :=
  match turns with
  | O => mret (Running, reader)
  | S turns =>
      let '(r, reader) := Next reader in
      match r with
      | inl err =>
          if decide (err = io_EOF) then mret (Returned None, reader)
          else mret (Returned (Some err), reader)
      | inr header =>
          match callback with
          | Some cb =>
              '(reader, err) ← invokeTar cb reader header;
              match err with
              | Some err => mret (Returned (Some err), reader)
              | None => readTar turns reader callback
              end
          | None => readTar turns reader callback
          end
      end
  end.

(** [os.Open] on the current file system. *)
Definition open (archivePath : string) : M (error + Stream) :=
  u ← get_user; mret (os_Open u archivePath).

(** [func WalkTar(archivePath string, callback TarCallback) error]. *)
Definition WalkTar (turns : nat) (archivePath : string) (callback : option TarCallback)
    : M outcome :=
  r ← open archivePath;
  match r with
  | inl err => mret (Returned (Some (fmt_Errorf fmtErrArchiveOpen err)))
  | inr file =>
      r ← readTar turns (tar_NewReader file) callback; mret r.1
  end.

(** [func WalkTarBzip2(archivePath string, callback TarCallback) error]. *)
Definition WalkTarBzip2 (turns : nat) (archivePath : string)
    (callback : option TarCallback) : M outcome :=
  r ← open archivePath;
  match r with
  | inl err => mret (Returned (Some (fmt_Errorf fmtErrArchiveOpen err)))
  | inr file =>
      let reader := bzip2_NewReader file in
      r ← readTar turns (tar_NewReader reader) callback; mret r.1
  end.

(** [func WalkTarGz(archivePath string, callback TarCallback) error]. *)
Definition WalkTarGz (turns : nat) (archivePath : string)
    (callback : option TarCallback) : M outcome :=
  r ← open archivePath;
  match r with
  | inl err => mret (Returned (Some (fmt_Errorf fmtErrArchiveOpen err)))
  | inr file =>
      match gzip_NewReader file with
      | inl err => mret (Returned (Some (fmt_Errorf fmtErrNewGzReader err)))
      | inr reader =>
          r ← readTar turns (tar_NewReader reader) callback; mret r.1
      end
  end.

(** [func WalkTarXz(archivePath string, callback TarCallback) error]. *)
Definition WalkTarXz (turns : nat) (archivePath : string)
    (callback : option TarCallback) : M outcome :=
  r ← open archivePath;
  match r with
  | inl err => mret (Returned (Some (fmt_Errorf fmtErrArchiveOpen err)))
  | inr file =>
      match xz_NewReader file with
      | inl err => mret (Returned (Some (fmt_Errorf fmtErrNewXzReader err)))
      | inr reader =>
          r ← readTar turns (tar_NewReader reader) callback; mret r.1
      end
  end.

(** *** Programs that use the package *)

(** A call of an exported function, with the order its [range] loop
    takes for [DetermineType], and the number of turns of its loop that
    are looked at for a tar walker. *)
Inductive call : Type :=
| call_DetermineType (ρ : gmap Type_ typeInfo → list (Type_ * typeInfo)) (filename : string)
| call_WalkTar (turns : nat) (archivePath : string) (callback : option TarCallback)
| call_WalkTarBzip2 (turns : nat) (archivePath : string) (callback : option TarCallback)
| call_WalkTarGz (turns : nat) (archivePath : string) (callback : option TarCallback)
| call_WalkTarXz (turns : nat) (archivePath : string) (callback : option TarCallback)
| call_WalkZip (archivePath : string) (callback : option ZipCallback).

Definition run_call (c : call) : M unit :=
  match c with
  | call_DetermineType ρ filename => DetermineType ρ filename;; mret tt
  | call_WalkTar n p cb => WalkTar n p cb;; mret tt
  | call_WalkTarBzip2 n p cb => WalkTarBzip2 n p cb;; mret tt
  | call_WalkTarGz n p cb => WalkTarGz n p cb;; mret tt
  | call_WalkTarXz n p cb => WalkTarXz n p cb;; mret tt
  | call_WalkZip p cb => WalkZip p cb;; mret tt
  end.

(** The states a sequence of calls goes through, the one it starts from
    first. *)
Fixpoint states (cs : list call) (w : world) : list world :=
  match cs with
  | [] => [w]
  | c :: rest => w :: states rest (run_call c w).2
  end.

(** The table is the one [init] leaves. *)
Definition initialized (w : world) : Prop :=
  typeInfoMap w = typeInfoMap (init w).2.

(** A program: the runtime runs [init] before any call of the caller. *)
Definition program (cs : list call) (w : world) : list world :=
  states cs (init w).2.

(** *** Notions used to state the properties of the walkers *)

(** The state a loop over entries leaves when the callback stops it at the
    entry [x], after the entries [pre]: the callback ran on [pre] and on
    [x] and on nothing else, and left [u] outside the package. *)
Definition stopped {E} (log : E → entry) (w : world) (pre : list E) (x : E)
    (u : UserState) : world :=
  World (typeInfoMap w) u (calls w ++ (log <$> pre ++ [x])).

(** The state a walk leaves when the callback ran on the entries [es], in
    that order, and left [u] outside the package. *)
Definition visited {E} (log : E → entry) (w : world) (es : list E) (u : UserState)
    : world :=
  World (typeInfoMap w) u (calls w ++ (log <$> es)).

(** What [readTar] returns once the reader has no header left: [nil] at
    the end of the archive, the error of the reader otherwise. *)
Definition at_end (reader : tar_Reader) : option error :=
  if decide (final reader = io_EOF) then None else Some (final reader).

(** The reader after [n] calls of [Next]. *)
Definition advanced (n : nat) (reader : tar_Reader) : tar_Reader :=
  Nat.iter n (λ r, (Next r).2) reader.

(** A tar callback that reads the header and the body of its entry and
    does nothing else with the reader. *)
Definition on_header (cb : Header → UserState → UserState * option error)
    : TarCallback :=
  λ reader header u, let '(u', err) := cb header u in (reader, u', err).

(** A tar callback that leaves the reader where the loop put it, and one
    that does no more to the reader than call [Next] on it. *)
Definition leaves_reader (cb : TarCallback) : Prop :=
  ∀ reader header u, (cb reader header u).1.1 = reader.

Definition advances_reader (cb : TarCallback) : Prop :=
  ∀ reader header u, ∃ n, (cb reader header u).1.1 = advanced n reader.

(** The first [k] turns of the loop of [readTar] when the callback
    returns [nil] in each of them: the entries the loop hands to the
    callback, and the reader and the state outside the package when the
    next turn begins.  [None] when the reader or the callback ends the
    loop before. *)
Fixpoint handed (cb : TarCallback) (k : nat) (reader : tar_Reader) (u : UserState)
    : option (list Header * tar_Reader * UserState) :=
  match k with
  | O => Some ([], reader, u)
  | S k =>
      match Next reader with
      | (inl _, _) => None
      | (inr header, reader) =>
          match cb reader header u with
          | (reader, u, None) =>
              (λ '(hs, r, u'), (header :: hs, r, u')) <$> handed cb k reader u
          | (_, _, Some _) => None
          end
      end
  end.

End Archive.

(** ** A sample environment

    The archives of the test data of the package, as the tests and the
    examples of the package describe them: what each file holds, in the
    order its entries come, and which decoder accepts it. *)

Module Sample.

Record stream : Type := Stream_ { format : Type_; names : list string; ending : error }.

Definition sample_names : list string := ["sample/"; "sample/text/"; "sample/text/lorem.txt"].

Definition files : list (string * stream) :=
  [ ("testdata/sample.tar", Stream_ Tar (reverse sample_names) io_EOF);
    ("testdata/sample.tar.bz2", Stream_ TarBz2 sample_names io_EOF);
    ("testdata/sample.tar.gz", Stream_ TarGz sample_names io_EOF);
    ("testdata/sample.tar.xz", Stream_ TarXz sample_names io_EOF);
    ("testdata/sample.zip", Stream_ Zip sample_names io_EOF);
    ("testdata/invalid.tar", Stream_ Tar [] (foreign 3 "archive/tar: invalid tar header")) ].

Definition os_Open (u : nat) (path : string) : error + stream :=
  match list_find (λ p, p.1 = path) files with
  | Some (_, (_, s)) => inr s
  | None => inl (foreign 2 ("open " +:+ path +:+ ": no such file or directory"))
  end.

Definition gzip_NewReader (s : stream) : error + stream :=
  if decide (format s = TarGz) then inr s else inl (foreign 4 "gzip: invalid header").

Definition xz_NewReader (s : stream) : error + stream :=
  if decide (format s = TarXz) then inr s else inl (foreign 5 "xz: invalid header").

Definition bzip2_NewReader (s : stream) : stream :=
  if decide (format s = TarBz2) then s
  else Stream_ (format s) [] (foreign 6 "bzip2 data invalid: bad magic value").

Definition zip_readDirectory (s : stream) : error + list string :=
  if decide (format s = Zip) then inr (names s)
  else inl (foreign 7 "zip: not a valid zip file").

Definition tar_NewReader (s : stream) : @tar_Reader string :=
  TarReader (names s) (ending s).

(** Lowering of strings whose runes outside ASCII have no case. *)
Definition MapToLower (s : string) : string := lowerASCII s.

(** The callbacks of the tests: one counts the entries it sees, one fails
    on every entry, one fails on a given entry. *)
Definition count (name : string) (n : nat) : nat * option error := (S n, None).

Definition errCallback : error := foreign 9 "an error in callback processing".

Definition failing (name : string) (n : nat) : nat * option error :=
  (S n, Some errCallback).

Definition failing_on (target name : string) (n : nat) : nat * option error :=
  (S n, if decide (name = target) then Some errCallback else None).

(** Two callbacks that use the reader: one calls [Next] on it once, so
    that the loop does not see the entry that follows; one puts it back
    before the entry it was handed. *)
Definition skipping : @TarCallback nat string :=
  λ reader name n, ((Next reader).2, S n, None).

Definition rewinding : @TarCallback nat string :=
  λ reader name n, (TarReader (name :: pending reader) (final reader), S n, None).

(** The state once [init] has run. *)
Definition w0 : @world nat string string := (init (World ∅ 0%nat [])).2.

(** The table of [TestDetermineType]. *)
Definition types : list (string * Type_ * option error) :=
  [ ("foo.tar", Tar, None);
    ("foo.tar.bz2", TarBz2, None);
    ("foo.tar.bzip2", TarBz2, None);
    ("foo.tbz", TarBz2, None);
    ("foo.tbz2", TarBz2, None);
    ("foo.tar.gz", TarGz, None);
    ("foo.tgz", TarGz, None);
    ("foo.tar.xz", TarXz, None);
    ("foo.txz", TarXz, None);
    ("foo.zip", Zip, None);
    ("foo.123", 0, Some ErrUnknownType);
    ("foo.tar1", 0, Some ErrUnknownType);
    ("foo.is.bar.abc.123-579.wxyz.tar.bz2", TarBz2, None);
    ("/usr/local/bin/foo.txz", TarXz, None);
    ("C:\Users\sam\Desktop\foo.zip", Zip, None);
    ("foo.tAr.XZ", TarXz, None);
    ("foo.zip.tar.xz", TarXz, None);
    ("foo.tar.xz.zip", Zip, None) ].

End Sample.

(** ** Notions used to state further properties *)

(** A byte [makeRegex] turns into a pattern for that very byte: an ASCII
    byte that is a dot, which it escapes, or that has no meaning of its
    own in a pattern. *)
Definition plainByte (c : ascii) : bool :=
  isASCIIbyte c && (bool_decide (c = "."%char) || negb (Regexp.isMeta c)).

Fixpoint plainString (s : string) : bool :=
  match s with
  | "" => true
  | String c s' => plainByte c && plainString s'
  end.

(** What [strings.Replace] makes of its argument in [makeRegex]: a
    backslash before every dot. *)
Fixpoint escapeDots (s : string) : string :=
  match s with
  | "" => ""
  | String c s' =>
      if decide (c = "."%char) then String "\" (String "." (escapeDots s'))
      else String c (escapeDots s')
  end.

(** A pair of a table all of whose suffixes are made of such bytes. *)
Definition plain_entry (p : Type_ * typeInfo) : Prop :=
  regex p.2 = "" ∧ extensions p.2 ≠ [] ∧ forallb plainString (extensions p.2) = true.

Global Instance plain_entry_dec p : Decision (plain_entry p).
Proof. unfold plain_entry. apply _. Defined.

(** The suffixes of a sequence of pairs, each with its type. *)
Definition suffixes_of (pairs : list (Type_ * typeInfo)) : list (Type_ * string) :=
  pairs ≫= λ p, (λ s, (p.1, s)) <$> extensions p.2.

(** A byte of the string is a dot. *)
Fixpoint hasDot (s : string) : bool :=
  match s with
  | "" => false
  | String c s' => bool_decide (c = "."%char) || hasDot s'
  end.

(** Two tables other than the one of [init]: one of two types with
    suffixes of their own, one of two types a name can be of at once. *)
Definition other_table : list (Type_ * typeInfo) :=
  [ (7, TypeInfo [".rar"] ""); (9, TypeInfo [".7z"; ".s7z"] "") ].

Definition ambiguous_table : list (Type_ * typeInfo) :=
  [ (7, TypeInfo [".gz"] ""); (9, TypeInfo [".tar.gz"] "") ].

Definition w1 : @world nat string string := World (list_to_map other_table) 0%nat [].
Definition w2 : @world nat string string := World (list_to_map ambiguous_table) 0%nat [].

(** * Properties *)

Import Regexp.

(** ** Strings *)

Lemma app_empty_l (s : string) : "" +:+ s = s.
Proof. reflexivity. Qed.
Lemma app_String c (p s : string) : String c p +:+ s = String c (p +:+ s).
Proof. reflexivity. Qed.
Lemma app_empty_r (s : string) : s +:+ "" = s.
Proof. induction s; [done|]. rewrite app_String. by f_equal. Qed.

Ltac norm_app := rewrite ?app_empty_l, ?app_String in *.

Lemma HasSuffix_spec s suf : HasSuffix s suf = true ↔ ∃ p, s = p +:+ suf.
Proof.
  induction s as [|c s IH]; simpl.
  - rewrite orb_false_r, bool_decide_eq_true. split.
    + intros <-. by exists "".
    + intros [[|? ?] Hp]; norm_app; by simplify_eq.
  - rewrite orb_true_iff, bool_decide_eq_true, IH. split.
    + intros [<- | [p ->]]; [by exists "" | by exists (String c p)].
    + intros [[|c' p] Hp]; norm_app; simplify_eq; [by left | right; by exists p].
Qed.

Lemma HasSuffix_refl s : HasSuffix s s = true.
Proof. destruct s; apply orb_true_iff; left; by apply bool_decide_eq_true. Qed.

Lemma HasSuffix_weak_total f s1 s2 :
  HasSuffix f s1 = true → HasSuffix f s2 = true →
  HasSuffix s1 s2 = true ∨ HasSuffix s2 s1 = true.
Proof.
  induction f as [|c f IH]; simpl; rewrite !orb_true_iff, !bool_decide_eq_true.
  - intros [<- | ?] [<- | ?]; try done. by left.
  - intros [<- | H1] [<- | H2]; auto using HasSuffix_refl.
    + left. simpl. rewrite H2. apply orb_true_r.
    + right. simpl. rewrite H1. apply orb_true_r.
Qed.

(** ** The regexp fragment: what a pattern of [makeRegex] matches *)

Lemma elem_of_rests r s rest :
  rest ∈ rests r s ↔ ∃ caps, (rest, caps) ∈ matchHere r s.
Proof.
  unfold rests. rewrite list_elem_of_fmap. split.
  - intros [[? caps] [-> ?]]. by exists caps.
  - intros [caps ?]. by exists (rest, caps).
Qed.

Lemma rests_Literal c s rest : rest ∈ rests (Literal c) s ↔ s = String c rest.
Proof.
  unfold rests. destruct s as [|c' s]; simpl.
  - rewrite elem_of_nil. by split.
  - case_decide as Hc; simpl.
    + rewrite list_elem_of_singleton. subst. split; [by intros -> | by intros [= ->]].
    + rewrite elem_of_nil. split; [done | intros [=]; congruence].
Qed.

Lemma rests_EmptyMatch s rest : rest ∈ rests EmptyMatch s ↔ s = rest.
Proof. unfold rests; simpl. rewrite list_elem_of_singleton. split; by intros ->. Qed.

Lemma rests_EndText s rest : rest ∈ rests EndText s ↔ s = "" ∧ rest = "".
Proof.
  unfold rests. destruct s; simpl.
  - rewrite list_elem_of_singleton. split; [by intros -> | by intros [_ ->]].
  - rewrite elem_of_nil. split; [done | by intros [? _]].
Qed.

Lemma rests_Concat r1 r2 s rest :
  rest ∈ rests (Concat r1 r2) s ↔ ∃ mid, mid ∈ rests r1 s ∧ rest ∈ rests r2 mid.
Proof.
  rewrite elem_of_rests. simpl. split.
  - intros [caps H]. apply list_elem_of_bind in H as [[mid caps1] [H H1]].
    apply list_elem_of_bind in H as [[rest' caps2] [H H2]].
    apply list_elem_of_singleton in H. simplify_eq.
    exists mid. rewrite !elem_of_rests. eauto.
  - intros [mid [[caps1 H1]%elem_of_rests [caps2 H2]%elem_of_rests]].
    exists (caps1 ++ caps2). apply list_elem_of_bind. exists (mid, caps1). split; [|done].
    apply list_elem_of_bind. exists (rest, caps2). split; [|done].
    by apply list_elem_of_singleton.
Qed.

Lemma rests_Alternate r1 r2 s rest :
  rest ∈ rests (Alternate r1 r2) s ↔ rest ∈ rests r1 s ∨ rest ∈ rests r2 s.
Proof.
  unfold rests. simpl. rewrite fmap_app, elem_of_app, <-!list_fmap_compose.
  assert (∀ (g : string * list string → string * list string)
            (l : list (string * list string)),
    (∀ x, (g x).1 = x.1) → fst ∘ g <$> l = fst <$> l) as Hg.
  { intros g l Hgx. apply list_fmap_ext. intros ? x _. apply Hgx. }
  rewrite !Hg; [done | by intros [??] ..].
Qed.

Lemma rests_Capture r s rest : rest ∈ rests (Capture r) s ↔ rest ∈ rests r s.
Proof.
  unfold rests. simpl. rewrite <-list_fmap_compose.
  erewrite list_fmap_ext; [done|]. by intros ? [??] _.
Qed.

Lemma rests_lits e s rest : rest ∈ rests (lits e) s ↔ s = e +:+ rest.
Proof.
  revert s. induction e as [|c e IH]; intros s.
  - simpl. apply rests_EmptyMatch.
  - destruct e as [|c' e'].
    + simpl. apply rests_Literal.
    + change (lits (String c (String c' e'))) with (Concat (Literal c) (lits (String c' e'))).
      rewrite rests_Concat. setoid_rewrite rests_Literal. setoid_rewrite IH.
      split; [intros (mid & -> & ->); done | intros ->; eauto].
Qed.

Lemma rests_altsOf_lits exts s rest :
  exts ≠ [] →
  rest ∈ rests (altsOf (lits <$> exts)) s ↔ ∃ e, e ∈ exts ∧ s = e +:+ rest.
Proof.
  induction exts as [|e exts IH]; [done|]. intros _.
  destruct exts as [|e' exts'].
  - simpl. rewrite rests_lits. split.
    + intros ->. exists e. split; [left | done].
    + by intros (e0 & ->%list_elem_of_singleton & ->).
  - change (altsOf (lits <$> e :: e' :: exts'))
      with (Alternate (lits e) (altsOf (lits <$> e' :: exts'))).
    rewrite rests_Alternate, rests_lits, IH by done. split.
    + intros [-> | (e0 & He0 & ->)];
        [exists e; split; [left | done] | exists e0; split; [by right | done]].
    + intros (e0 & [-> | He0]%elem_of_cons & ->); [by left | right; eauto].
Qed.

Lemma matchHere_suffixPattern exts s :
  exts ≠ [] → matchHere (suffixPattern exts) s ≠ [] ↔ s ∈ exts.
Proof.
  intros Hne.
  assert (matchHere (suffixPattern exts) s ≠ [] ↔ ∃ rest, rest ∈ rests (suffixPattern exts) s) as ->.
  { unfold rests. destruct (matchHere _ s) as [|[rest caps] l]; simpl.
    - split; [done | intros [? []%elem_of_nil]].
    - split; [|done]. intros _. exists rest. left. }
  unfold suffixPattern. setoid_rewrite rests_Concat. setoid_rewrite rests_Capture.
  setoid_rewrite rests_EndText. setoid_rewrite rests_altsOf_lits; [|done..].
  split.
  - intros (rest & mid & (e & He & ->) & -> & ->).
    by rewrite app_empty_r.
  - intros He. exists "", "". split; [|done]. exists s. by rewrite app_empty_r.
Qed.

Lemma FindStringSubmatch_nonempty re s :
  FindStringSubmatch re s ≠ [] ↔ ∃ p t, s = p +:+ t ∧ matchHere re t ≠ [].
Proof.
  induction s as [|c s IH].
  - simpl. destruct (matchHere re "") as [|[rest caps] l] eqn:E.
    + split; [done|]. intros (p & t & Hpt & Ht). destruct p, t; norm_app; simplify_eq.
    + split; [|done]. intros _. exists "", "". by rewrite E.
  - simpl. destruct (matchHere re (String c s)) as [|[rest caps] l] eqn:E.
    + rewrite IH. split.
      * intros (p & t & -> & Ht). by exists (String c p), t.
      * intros (p & t & Hpt & Ht). destruct p as [|c' p]; norm_app; simplify_eq; eauto.
    + split; [|done]. intros _. exists "", (String c s). by rewrite E.
Qed.

Lemma FindStringSubmatch_suffixPattern exts f :
  exts ≠ [] →
  bool_decide (length (FindStringSubmatch (suffixPattern exts) f) ≠ 0%nat)
  = existsb (HasSuffix f) exts.
Proof.
  intros Hne. apply eq_true_iff_eq. rewrite bool_decide_eq_true, existsb_exists.
  rewrite length_zero_iff_nil, FindStringSubmatch_nonempty.
  setoid_rewrite matchHere_suffixPattern; [|done].
  setoid_rewrite HasSuffix_spec. setoid_rewrite <-list_elem_of_In. split.
  - intros (p & t & -> & Ht). exists t. split; [done | by exists p].
  - intros (x & Hx & p & ->). by exists p, x.
Qed.

(** ** The table and the loop of [DetermineType] *)

Lemma init_table_well_formed : Forall well_formed init_table.
Proof. repeat constructor; try done. Qed.

Lemma conflict_free_suffix_table : conflict_free suffix_table = true.
Proof. vm_compute. reflexivity. Qed.

(** The suffix table of the documentation is the content of [init_table]. *)
Lemma suffix_table_flatten :
  suffix_table = init_table ≫= λ p, (λ s, (p.1, s)) <$> extensions p.2.
Proof. reflexivity. Qed.

Lemma suffix_table_init_table T s :
  (T, s) ∈ suffix_table ↔ ∃ info, (T, info) ∈ init_table ∧ s ∈ extensions info.
Proof.
  rewrite suffix_table_flatten, list_elem_of_bind. split.
  - intros ([T' info] & Hs & Hin). simpl in Hs.
    apply list_elem_of_fmap in Hs as (s' & [= -> ->] & Hs'). eauto.
  - intros (info & Hin & Hs). exists (T, info). split; [|done].
    simpl. apply list_elem_of_fmap. eauto.
Qed.

Lemma conflict_free_spec table T1 s1 T2 s2 f :
  conflict_free table = true →
  (T1, s1) ∈ table → (T2, s2) ∈ table →
  HasSuffix f s1 = true → HasSuffix f s2 = true → T1 = T2.
Proof.
  unfold conflict_free. rewrite forallb_forall. intros Hcf H1 H2 Hf1 Hf2.
  specialize (Hcf _ (proj1 (list_elem_of_In _ _) H1)). simpl in Hcf.
  rewrite forallb_forall in Hcf.
  specialize (Hcf _ (proj1 (list_elem_of_In _ _) H2)). simpl in Hcf.
  apply orb_true_iff in Hcf as [Heq%bool_decide_eq_true | Hno]; [done|].
  apply negb_true_iff in Hno.
  destruct (HasSuffix_weak_total f s1 s2 Hf1 Hf2) as [H | H];
    rewrite H in Hno; simpl in Hno; [done | by rewrite orb_true_r in Hno].
Qed.

(** One turn of the loop on a well-formed pair: the test of the slice
    [m] is the test that the filename ends in a suffix of the type. *)
Lemma DetermineType_range_cons f T info rest :
  well_formed (T, info) →
  DetermineType_range f ((T, info) :: rest) =
    if matches f info then ([T], Some (T, None))
    else (T :: (DetermineType_range f rest).1, (DetermineType_range f rest).2).
Proof.
  intros (Hre & Hne & Hc). simpl in *.
  unfold DetermineType_range; fold DetermineType_range.
  destruct (decide (regex info = "")) as [_|]; [|done]. simpl. rewrite Hc.
  unfold matches. rewrite <-(FindStringSubmatch_suffixPattern _ _ Hne).
  case_decide as Hm.
  - by rewrite (bool_decide_eq_true_2 _ Hm).
  - rewrite bool_decide_eq_false_2 by (by intros ?). by destruct (DetermineType_range f rest).
Qed.

(** No pair matches: every type is tried and the unknown error returned. *)
Lemma DetermineType_range_none f pairs :
  Forall well_formed pairs →
  Forall (λ p, matches f p.2 = false) pairs →
  DetermineType_range f pairs = (pairs.*1, Some (0%N, Some ErrUnknownType)).
Proof.
  induction 1 as [|[T info] rest Hwf _ IH]; [done|].
  rewrite Forall_cons. intros [Hm Hrest]. simpl in Hm.
  rewrite DetermineType_range_cons, Hm, IH by done. done.
Qed.

(** The types tried are a prefix of the order of the loop, which returns
    the first type that matches. *)
Lemma DetermineType_range_first f pairs before T info after :
  Forall well_formed pairs →
  pairs = before ++ (T, info) :: after →
  Forall (λ p, matches f p.2 = false) before →
  matches f info = true →
  DetermineType_range f pairs = (before.*1 ++ [T], Some (T, None)).
Proof.
  intros Hwf -> Hb Hm. induction before as [|[T' info'] before IH].
  - rewrite app_nil_l in *. apply Forall_cons in Hwf as [Hwf _].
    by rewrite DetermineType_range_cons, Hm.
  - rewrite <-app_comm_cons in *.
    apply Forall_cons in Hwf as [Hwf Hwf']. apply Forall_cons in Hb as [Hb Hb'].
    simpl in Hb. rewrite DetermineType_range_cons, Hb, IH by done. done.
Qed.

(** Either some pair matches, and a first one exists, or none does. *)
Lemma first_match_or_none f (pairs : list (Type_ * typeInfo)) :
  (∃ before T info after, pairs = before ++ (T, info) :: after ∧
      Forall (λ p, matches f p.2 = false) before ∧ matches f info = true)
  ∨ Forall (λ p, matches f p.2 = false) pairs.
Proof.
  induction pairs as [|[T info] rest IH]; [by right|].
  destruct (matches f info) eqn:Hm.
  - left. exists [], T, info, rest. by repeat split.
  - destruct IH as [(before & T' & info' & after & -> & Hb & Hm') | Hnone].
    + left. exists ((T, info) :: before), T', info', after.
      repeat split; [|done]. by constructor.
    + right. by constructor.
Qed.

Lemma matches_spec f info :
  matches f info = true ↔ ∃ s, s ∈ extensions info ∧ HasSuffix f s = true.
Proof.
  unfold matches. rewrite existsb_exists. by setoid_rewrite list_elem_of_In.
Qed.

(** On any order of the pairs [init] stores, the loop returns the type
    whose suffix ends the filename. *)
Lemma DetermineType_range_registered f order T s :
  order ≡ₚ init_table → (T, s) ∈ suffix_table → HasSuffix f s = true →
  (DetermineType_range f order).2 = Some (T, None).
Proof.
  intros Hperm Hs Hf.
  assert (Forall well_formed order) as Hwf.
  { rewrite Hperm. apply init_table_well_formed. }
  destruct (first_match_or_none f order)
    as [(before & T' & info' & after & Heq & Hb & Hm') | Hnone].
  - erewrite DetermineType_range_first by done. simpl.
    apply matches_spec in Hm' as (s' & Hs' & Hf').
    assert ((T', s') ∈ suffix_table) as HT'.
    { apply suffix_table_init_table. exists info'. split; [|done].
      rewrite <-Hperm, Heq. apply elem_of_app. right. left. }
    by rewrite (conflict_free_spec _ _ _ _ _ _ conflict_free_suffix_table HT' Hs Hf' Hf).
  - apply suffix_table_init_table in Hs as (info & Hin & Hs).
    rewrite <-Hperm in Hin. rewrite Forall_forall in Hnone.
    specialize (Hnone _ Hin). simpl in Hnone.
    assert (matches f info = true) as Hm; [|congruence].
    apply matches_spec. eauto.
Qed.

Lemma DetermineType_range_unknown f order :
  order ≡ₚ init_table →
  (∀ T s, (T, s) ∈ suffix_table → HasSuffix f s = false) →
  DetermineType_range f order = (order.*1, Some (0%N, Some ErrUnknownType)).
Proof.
  intros Hperm Hno. apply DetermineType_range_none.
  - rewrite Hperm. apply init_table_well_formed.
  - apply Forall_forall. intros [T info] Hin. simpl.
    apply not_true_iff_false. intros (s & Hs & Hf)%matches_spec.
    rewrite (Hno T s) in Hf; [done|].
    apply suffix_table_init_table. exists info. by rewrite <-Hperm.
Qed.

(** The result does not depend on the order of the loop. *)
Lemma DetermineType_range_order_irrelevant f order1 order2 :
  order1 ≡ₚ init_table → order2 ≡ₚ init_table →
  (DetermineType_range f order1).2 = (DetermineType_range f order2).2.
Proof.
  intros H1 H2.
  destruct (decide (Exists (λ p, HasSuffix f p.2 = true) suffix_table))
    as [([T s] & Hs & Hf)%Exists_exists | Hno].
  - by rewrite !(DetermineType_range_registered _ _ T s).
  - rewrite !DetermineType_range_unknown; try done.
    all: intros T s Hs; apply not_true_iff_false; intros Hf; apply Hno.
    all: apply Exists_exists; by exists (T, s).
Qed.

(** ** Lowering *)

Lemma lowerByte_not_upper c : isUpper (lowerByte c) = false.
Proof. by destruct c as [[] [] [] [] [] [] [] []]. Qed.

Lemma lowerByte_ASCII c : isASCIIbyte (lowerByte c) = isASCIIbyte c.
Proof. by destruct c as [[] [] [] [] [] [] [] []]. Qed.

Lemma hasUpper_lowerASCII s : hasUpper (lowerASCII s) = false.
Proof. induction s; simpl; [done|]. by rewrite lowerByte_not_upper, IHs. Qed.

Lemma isASCII_lowerASCII s : isASCII (lowerASCII s) = isASCII s.
Proof. induction s; simpl; [done|]. by rewrite lowerByte_ASCII, IHs. Qed.

(** On a string of ASCII bytes [strings.ToLower] lowers byte by byte. *)
Lemma lowerASCII_no_upper s : hasUpper s = false → lowerASCII s = s.
Proof.
  induction s as [|c s IH]; simpl; [done|].
  intros [Hc Hs]%orb_false_iff. unfold lowerByte. by rewrite Hc, IH.
Qed.

Lemma ToLower_ASCII MapToLower s :
  isASCII s = true → ToLower MapToLower s = lowerASCII s.
Proof.
  intros Ha. unfold ToLower. rewrite Ha.
  destruct (hasUpper s) eqn:Hu; [done | by rewrite lowerASCII_no_upper].
Qed.

Lemma lowerASCII_app p t : lowerASCII (p +:+ t) = lowerASCII p +:+ lowerASCII t.
Proof. induction p as [|c p IH]; [done|]. norm_app. simpl. by rewrite IH. Qed.

Lemma ToLower_idempotent_ASCII MapToLower s :
  isASCII s = true →
  ToLower MapToLower (ToLower MapToLower s) = ToLower MapToLower s.
Proof.
  intros Ha. rewrite (ToLower_ASCII _ s Ha).
  rewrite ToLower_ASCII by (by rewrite isASCII_lowerASCII).
  apply lowerASCII_no_upper, hasUpper_lowerASCII.
Qed.

(** Lowering twice is lowering once, when it is so on the path through the
    Unicode tables. *)
Lemma ToLower_idempotent MapToLower s :
  (∀ t, isASCII t = false → ToLower MapToLower (MapToLower t) = MapToLower t) →
  ToLower MapToLower (ToLower MapToLower s) = ToLower MapToLower s.
Proof.
  intros Hmap. unfold ToLower at 2 3.
  destruct (isASCII s) eqn:Ha; [|by apply Hmap].
  destruct (hasUpper s) eqn:Hu; unfold ToLower.
  - by rewrite isASCII_lowerASCII, Ha, hasUpper_lowerASCII.
  - by rewrite Ha, Hu.
Qed.

Lemma ascending_Permutation m : ascending m ≡ₚ map_to_list m.
Proof. apply merge_sort_Permutation. Qed.

Lemma descending_Permutation m : descending m ≡ₚ map_to_list m.
Proof. unfold descending. by rewrite reverse_Permutation, ascending_Permutation. Qed.

(** ** The errors of the walkers *)

Lemma Sprintf_fmtErrArchiveOpen x :
  Sprintf fmtErrArchiveOpen x = "archive: failed to open archive: " +:+ x.
Proof. rewrite <-(app_empty_r x) at 2. reflexivity. Qed.

Lemma Sprintf_fmtErrNewGzReader x :
  Sprintf fmtErrNewGzReader x = "archive: failed to gz reader: " +:+ x.
Proof. rewrite <-(app_empty_r x) at 2. reflexivity. Qed.

Lemma Sprintf_fmtErrNewXzReader x :
  Sprintf fmtErrNewXzReader x = "archive: failed to xz reader: " +:+ x.
Proof. rewrite <-(app_empty_r x) at 2. reflexivity. Qed.

Lemma classify_open cause : classify (fmt_Errorf fmtErrArchiveOpen cause) = OpenFailure.
Proof. unfold classify, fmt_Errorf. simpl Error. rewrite Sprintf_fmtErrArchiveOpen. by vm_compute. Qed.

Lemma classify_gz cause : classify (fmt_Errorf fmtErrNewGzReader cause) = GzReaderFailure.
Proof. unfold classify, fmt_Errorf. simpl Error. rewrite Sprintf_fmtErrNewGzReader. by vm_compute. Qed.

Lemma classify_xz cause : classify (fmt_Errorf fmtErrNewXzReader cause) = XzReaderFailure.
Proof. unfold classify, fmt_Errorf. simpl Error. rewrite Sprintf_fmtErrNewXzReader. by vm_compute. Qed.


(** ** [DetermineType] and the walkers *)

Create HintDb walkers.
#[global] Hint Unfold WalkTar WalkTarBzip2 WalkTarGz WalkTarXz WalkZip : walkers.

Section Facts.

Context (MapToLower : string → string).
Context {UserState Header ZipFile Stream : Type}.
Context (os_Open : UserState → string → error + Stream).
Context (gzip_NewReader xz_NewReader : Stream → error + Stream).
Context (bzip2_NewReader : Stream → Stream).
Context (zip_readDirectory : Stream → error + list ZipFile).
Context (tar_NewReader : Stream → @tar_Reader Header).

Local Abbreviation world := (@world UserState Header ZipFile).
Local Abbreviation ToLower := (ToLower MapToLower).
Local Abbreviation DetermineType := (@DetermineType MapToLower UserState Header ZipFile).
Local Abbreviation DetermineType_traced :=
  (@DetermineType_traced MapToLower UserState Header ZipFile).
Local Abbreviation TarCallback := (@TarCallback UserState Header).
Local Abbreviation ZipCallback := (@ZipCallback UserState ZipFile).
Local Abbreviation open := (open os_Open).
Local Abbreviation zip_OpenReader := (zip_OpenReader os_Open zip_readDirectory).

Implicit Types (w : world) (ρ : gmap Type_ typeInfo → list (Type_ * typeInfo)).
Implicit Types (reader : @tar_Reader Header).


Lemma init_typeInfoMap w : typeInfoMap (init w).2 = list_to_map init_table.
Proof. reflexivity. Qed.

Lemma initialized_init w : initialized (init w).2.
Proof. reflexivity. Qed.

Lemma map_to_list_init_table w :
  initialized w → map_to_list (typeInfoMap w) ≡ₚ init_table.
Proof.
  unfold initialized. intros ->. rewrite init_typeInfoMap.
  apply map_to_list_to_map. by apply (bool_decide_unpack _).
Qed.

Lemma initialized_table w ρ :
  initialized w → range_order ρ (typeInfoMap w) → ρ (typeInfoMap w) ≡ₚ init_table.
Proof. unfold range_order. intros Hi ->. by apply map_to_list_init_table. Qed.

Lemma initialized_lookup w T info :
  initialized w → typeInfoMap w !! T = Some info ↔ (T, info) ∈ init_table.
Proof.
  intros Hi. by rewrite <-elem_of_map_to_list, (map_to_list_init_table w Hi).
Qed.

Lemma DetermineType_unfold ρ f w :
  DetermineType ρ f w = ((DetermineType_range (ToLower f) (ρ (typeInfoMap w))).2, w).
Proof. reflexivity. Qed.

Lemma DetermineType_traced_unfold ρ f w :
  DetermineType_traced ρ f w = (DetermineType_range (ToLower f) (ρ (typeInfoMap w)), w).
Proof. reflexivity. Qed.

(** Claim C1.  Once [init] has run, whatever the order of the [range] loop:
    the suffixes registered in [typeInfoMap] are those of the suffix table
    (Tar: .tar; TarBz2: .tar.bz2, .tar.bzip2, .tbz, .tbz2; TarGz: .tar.gz,
    .tgz; TarXz: .tar.xz, .txz; Zip: .zip); for a filename whose lowered
    form ends in a suffix registered for the type [T], [DetermineType]
    returns [T] and a [nil] error; for a filename whose lowered form ends
    in none of the registered suffixes, it returns the zero [Type] and
    [ErrUnknownType].  In both cases it returns (it does not panic) and
    leaves the state as it was.  For a filename of ASCII bytes the lowered
    form is the filename with its upper-case letters lowered, so that a
    name whose tail is a registered suffix up to the case of its letters
    gets the type of that suffix. *)
Theorem DetermineType_suffix_table ρ w f :
  range_order ρ (typeInfoMap w) → initialized w →
  (∀ T s, (T, s) ∈ suffix_table ↔
          ∃ info, typeInfoMap w !! T = Some info ∧ s ∈ extensions info)
  ∧ (∀ T s, (T, s) ∈ suffix_table → HasSuffix (ToLower f) s = true →
            DetermineType ρ f w = (Some (T, None), w))
  ∧ ((∀ T s, (T, s) ∈ suffix_table → HasSuffix (ToLower f) s = false) →
     DetermineType ρ f w = (Some (0%N, Some ErrUnknownType), w))
  ∧ (∀ T p t, f = p +:+ t → isASCII f = true → (T, lowerASCII t) ∈ suffix_table →
              DetermineType ρ f w = (Some (T, None), w)).
Proof.
  intros Hρ Hi. pose proof (initialized_table w ρ Hi Hρ) as Hperm.
  split; [|split; [|split]].
  - intros T s. rewrite suffix_table_init_table.
    by setoid_rewrite (initialized_lookup w _ _ Hi).
  - intros T s Hs Hf. rewrite DetermineType_unfold.
    by rewrite (DetermineType_range_registered _ _ T s).
  - intros Hno. rewrite DetermineType_unfold.
    by rewrite DetermineType_range_unknown.
  - intros T p t -> Ha Hs. rewrite DetermineType_unfold.
    rewrite (DetermineType_range_registered _ _ T (lowerASCII t)); [done..|].
    rewrite (ToLower_ASCII _ _ Ha), lowerASCII_app.
    apply HasSuffix_spec. by exists (lowerASCII p).
Qed.

(** Claim C2.  [DetermineType] matches at the true end of the string only:
    when it returns a type with a [nil] error, the lowered filename ends in
    a suffix registered for that type, whatever suffixes of other types sit
    earlier in the name.  In particular it returns [TarXz] on
    "foo.zip.tar.xz" and [Zip] on "foo.tar.xz.zip", both with a [nil]
    error. *)
Theorem DetermineType_true_end ρ w :
  range_order ρ (typeInfoMap w) → initialized w →
  (∀ f T, DetermineType ρ f w = (Some (T, None), w) →
          ∃ s, (T, s) ∈ suffix_table ∧ HasSuffix (ToLower f) s = true)
  ∧ DetermineType ρ "foo.zip.tar.xz" w = (Some (TarXz, None), w)
  ∧ DetermineType ρ "foo.tar.xz.zip" w = (Some (Zip, None), w).
Proof.
  intros Hρ Hi. pose proof (initialized_table w ρ Hi Hρ) as Hperm.
  split; [|split].
  - intros f T. rewrite DetermineType_unfold. intros [= Hres].
    destruct (decide (Exists (λ p, HasSuffix (ToLower f) p.2 = true) suffix_table))
      as [([T' s] & Hs & Hf)%Exists_exists | Hno].
    + simpl in Hf. rewrite (DetermineType_range_registered _ _ T' s) in Hres by done.
      simplify_eq. eauto.
    + rewrite DetermineType_range_unknown in Hres; [done..|].
      intros T' s Hs. apply not_true_iff_false. intros Hf. apply Hno.
      apply Exists_exists. by exists (T', s).
  - rewrite DetermineType_unfold.
    rewrite (DetermineType_range_registered _ _ TarXz ".tar.xz");
      [done | done | by apply (bool_decide_unpack _) | by vm_compute].
  - rewrite DetermineType_unfold.
    rewrite (DetermineType_range_registered _ _ Zip ".zip");
      [done | done | by apply (bool_decide_unpack _) | by vm_compute].
Qed.

(** The order of the loop does not show in the result. *)
Lemma DetermineType_order_irrelevant ρ1 ρ2 w f :
  range_order ρ1 (typeInfoMap w) → range_order ρ2 (typeInfoMap w) → initialized w →
  DetermineType ρ1 f w = DetermineType ρ2 f w.
Proof.
  intros H1 H2 Hi. rewrite !DetermineType_unfold. f_equal.
  apply DetermineType_range_order_irrelevant; by apply initialized_table.
Qed.

(** The types tried are the first ones of the order of the loop. *)
Lemma DetermineType_range_tried_prefix f pairs :
  (DetermineType_range f pairs).1 `prefix_of` pairs.*1.
Proof.
  induction pairs as [|[T info] rest IH]; [done|].
  simpl. destruct (Regexp.Compile _); [|apply prefix_cons, prefix_nil].
  case_decide; [apply prefix_cons, prefix_nil|].
  destruct (DetermineType_range f rest). by apply prefix_cons.
Qed.

(** Claim C3, as amended.  During [DetermineType] the types are tried in
    the order the [range] loop over the map yields them, which is some
    arrangement of the five declared types: the types tried are the first
    ones of that order, up to and including the first type that matches
    (all of them when no type matches), and the value returned is the same
    for every such order. *)
Theorem DetermineType_tried_in_range_order ρ w f :
  range_order ρ (typeInfoMap w) → initialized w →
  (ρ (typeInfoMap w)).*1 ≡ₚ declared_order
  ∧ (DetermineType_traced ρ f w).1.1 `prefix_of` (ρ (typeInfoMap w)).*1
  ∧ (∀ T, (DetermineType_traced ρ f w).1.2 = Some (T, None) →
          last (DetermineType_traced ρ f w).1.1 = Some T)
  ∧ ((DetermineType_traced ρ f w).1.2 = Some (0%N, Some ErrUnknownType) →
     (DetermineType_traced ρ f w).1.1 = (ρ (typeInfoMap w)).*1)
  ∧ (∀ ρ', range_order ρ' (typeInfoMap w) →
           (DetermineType_traced ρ' f w).1.2 = (DetermineType_traced ρ f w).1.2).
Proof.
  intros Hρ Hi. pose proof (initialized_table w ρ Hi Hρ) as Hperm.
  assert (Forall well_formed (ρ (typeInfoMap w))) as Hwf.
  { rewrite Hperm. apply init_table_well_formed. }
  split; [by rewrite Hperm|].
  split; [apply DetermineType_range_tried_prefix|].
  split; [|split].
  - intros T. rewrite DetermineType_traced_unfold. simpl.
    destruct (first_match_or_none (ToLower f) (ρ (typeInfoMap w)))
      as [(before & T' & info' & after & Heq & Hb & Hm') | Hnone].
    + rewrite (DetermineType_range_first _ _ _ _ _ _ Hwf Heq Hb Hm'). simpl.
      intros [= ->]. by rewrite last_snoc.
    + by rewrite (DetermineType_range_none _ _ Hwf Hnone).
  - rewrite DetermineType_traced_unfold. simpl.
    destruct (first_match_or_none (ToLower f) (ρ (typeInfoMap w)))
      as [(before & T' & info' & after & Heq & Hb & Hm') | Hnone].
    + by rewrite (DetermineType_range_first _ _ _ _ _ _ Hwf Heq Hb Hm').
    + by rewrite (DetermineType_range_none _ _ Hwf Hnone).
  - intros ρ' Hρ'. rewrite !DetermineType_traced_unfold. simpl.
    apply DetermineType_range_order_irrelevant; by apply initialized_table.
Qed.

(** Claim C4.  The value [DetermineType] returns does not depend on the
    order in which the table is walked: any two orders of the [range] loop
    give the same type and error (and state), because the lowered filename
    cannot end in registered suffixes of two distinct types, no registered
    suffix being the tail of a suffix registered for another type. *)
Theorem DetermineType_independent_of_order ρ1 ρ2 w f :
  range_order ρ1 (typeInfoMap w) → range_order ρ2 (typeInfoMap w) → initialized w →
  DetermineType ρ1 f w = DetermineType ρ2 f w
  ∧ (∀ T1 s1 T2 s2, (T1, s1) ∈ suffix_table → (T2, s2) ∈ suffix_table →
       HasSuffix (ToLower f) s1 = true → HasSuffix (ToLower f) s2 = true → T1 = T2)
  ∧ (∀ T1 s1 T2 s2, (T1, s1) ∈ suffix_table → (T2, s2) ∈ suffix_table →
       HasSuffix s1 s2 = true → T1 = T2).
Proof.
  intros H1 H2 Hi. split; [by apply DetermineType_order_irrelevant|]. split.
  - intros T1 s1 T2 s2 Hs1 Hs2.
    by apply (conflict_free_spec suffix_table _ _ _ _ _ conflict_free_suffix_table).
  - intros T1 s1 T2 s2 Hs1 Hs2 Hsuf.
    apply (conflict_free_spec suffix_table T1 s1 T2 s2 s1);
      auto using conflict_free_suffix_table, HasSuffix_refl.
Qed.

(** Claim C5.  [DetermineType] is case-insensitive: on a filename and on
    its lowered form it returns the same result, and on "foo.tAr.XZ" it
    returns [TarXz] with a [nil] error.  For a filename of ASCII bytes the
    equation holds as it stands; for the others it holds as soon as
    lowering the result of the path of [strings.ToLower] through the
    Unicode tables changes nothing. *)
Theorem DetermineType_case_insensitive ρ ρ' w :
  range_order ρ (typeInfoMap w) → range_order ρ' (typeInfoMap w) → initialized w →
  (∀ f, isASCII f = true → DetermineType ρ f w = DetermineType ρ' (ToLower f) w)
  ∧ ((∀ t, isASCII t = false → ToLower (MapToLower t) = MapToLower t) →
     ∀ f, DetermineType ρ f w = DetermineType ρ' (ToLower f) w)
  ∧ DetermineType ρ "foo.tAr.XZ" w = (Some (TarXz, None), w).
Proof.
  intros Hρ Hρ' Hi. split; [|split].
  - intros f Ha. rewrite (DetermineType_order_irrelevant ρ ρ' w f) by done.
    rewrite !DetermineType_unfold. by rewrite ToLower_idempotent_ASCII.
  - intros Hmap f. rewrite (DetermineType_order_irrelevant ρ ρ' w f) by done.
    rewrite !DetermineType_unfold. by rewrite ToLower_idempotent.
  - rewrite DetermineType_unfold.
    rewrite (DetermineType_range_registered _ _ TarXz ".tar.xz");
      [done | by apply initialized_table | by apply (bool_decide_unpack _) | by vm_compute].
Qed.


Local Abbreviation take := firstn.

(** One turn of the loop of [readTar]. *)
Lemma readTar_S turns reader (callback : option TarCallback) w :
  readTar (S turns) reader callback w =
    match Next reader with
    | (inl err, reader') =>
        (if decide (err = io_EOF) then (Returned None, reader')
         else (Returned (Some err), reader'), w)
    | (inr header, reader') =>
        match callback with
        | Some cb =>
            let '((reader'', err), w') := invokeTar cb reader' header w in
            match err with
            | Some err => ((Returned (Some err), reader''), w')
            | None => readTar turns reader'' callback w'
            end
        | None => readTar turns reader' callback w
        end
    end.
Proof.
  cbn [readTar]. destruct (Next reader) as [[err|header] reader'].
  - by case_decide.
  - destruct callback as [cb|]; [|done].
    unfold mbind, M_bind. by destruct (invokeTar cb reader' header w) as [[r'' [err|]] w'].
Qed.

Lemma Next_nil reader : pending reader = [] → Next reader = (inl (final reader), reader).
Proof. unfold Next. by intros ->. Qed.

Lemma Next_cons reader h rest :
  pending reader = h :: rest → Next reader = (inr h, TarReader rest (final reader)).
Proof. unfold Next. by intros ->. Qed.

Lemma Next_inr reader h reader' :
  Next reader = (inr h, reader') →
  pending reader = h :: pending reader' ∧ final reader' = final reader.
Proof.
  unfold Next. destruct (pending reader) as [|h' rest]; [done|]. by intros [= <- <-].
Qed.

Lemma tail_drop {A} n (l : list A) : tail (drop n l) = drop (S n) l.
Proof. revert n. induction l as [|x l IH]; intros [|n]; simpl; done. Qed.

(** The reader after [n] calls of [Next]: [n] headers further. *)
Lemma advanced_drop n reader :
  advanced n reader = TarReader (drop n (pending reader)) (final reader).
Proof.
  induction n as [|n IH]; [by destruct reader|].
  change (advanced (S n) reader) with (Next (advanced n reader)).2.
  rewrite IH. unfold Next. cbn [pending final].
  rewrite <-tail_drop. by destruct (drop n (pending reader)).
Qed.

Lemma visited_nil {E} (log : E → entry) w : visited log w [] (user w) = w.
Proof. destruct w. unfold visited. simpl. by rewrite app_nil_r. Qed.

Lemma visited_visited {E} (log : E → entry) w (es es' : list E) u u' :
  visited log (visited log w es u) es' u' = visited log w (es ++ es') u'.
Proof. unfold visited. simpl. by rewrite fmap_app, app_assoc. Qed.

Lemma stopped_visited {E} (log : E → entry) w pre (x : E) u :
  stopped log w pre x u = visited log w (pre ++ [x]) u.
Proof. reflexivity. Qed.

Lemma handed_S (cb : TarCallback) k reader u :
  handed cb (S k) reader u =
    match Next reader with
    | (inl _, _) => None
    | (inr header, reader') =>
        match cb reader' header u with
        | (reader'', u', None) =>
            (λ '(hs, r, u''), (header :: hs, r, u'')) <$> handed cb k reader'' u'
        | (_, _, Some _) => None
        end
    end.
Proof. reflexivity. Qed.

(** One more turn after [k] turns. *)
Lemma handed_snoc (cb : TarCallback) k reader u es r1 u1 h r1' r2 u2 :
  handed cb k reader u = Some (es, r1, u1) →
  Next r1 = (inr h, r1') → cb r1' h u1 = (r2, u2, None) →
  handed cb (S k) reader u = Some (es ++ [h], r2, u2).
Proof.
  revert reader u es. induction k as [|k IH]; intros reader u es Hk Hn Hcb.
  - simpl in Hk. simplify_eq. rewrite handed_S, Hn, Hcb. done.
  - rewrite handed_S in Hk. rewrite handed_S.
    destruct (Next reader) as [[err|h0] r0]; [done|].
    destruct (cb r0 h0 u) as [[r0' u0] [err|]]; [done|].
    destruct (handed cb k r0' u0) as [[[es' r] u']|] eqn:Hk'; [|done].
    simpl in Hk. simplify_eq.
    by rewrite (IH _ _ _ Hk' Hn Hcb).
Qed.

(** After [k] turns in which the callback returned [nil], the loop goes
    on as from the reader and the state these turns left. *)
Lemma readTar_handed (cb : TarCallback) k n reader w es r1 u1 :
  handed cb k reader (user w) = Some (es, r1, u1) →
  readTar (k + n) reader (Some cb) w
  = readTar n r1 (Some cb) (visited tarEntry w es u1).
Proof.
  revert reader w es. induction k as [|k IH]; intros reader w es Hk.
  - simpl in Hk. simplify_eq. by rewrite visited_nil.
  - rewrite handed_S in Hk. change (S k + n)%nat with (S (k + n)). rewrite readTar_S.
    destruct (Next reader) as [[err|h0] r0]; [done|].
    unfold invokeTar.
    destruct (cb r0 h0 (user w)) as [[r0' u0] [err|]]; [done|].
    destruct (handed cb k r0' u0) as [[[es' r] u']|] eqn:Hk'; [|done].
    simpl in Hk. simplify_eq.
    rewrite (IH r0' (World (typeInfoMap w) u0 (calls w ++ [tarEntry h0])) es') by done.
    f_equal. unfold visited. simpl. by rewrite <-app_assoc.
Qed.

Lemma readTar_running (cb : TarCallback) k reader w es r1 u1 :
  handed cb k reader (user w) = Some (es, r1, u1) →
  readTar k reader (Some cb) w = ((Running, r1), visited tarEntry w es u1).
Proof.
  intros Hk. rewrite <-(Nat.add_0_r k) at 1. by rewrite (readTar_handed _ _ _ _ _ _ _ _ Hk).
Qed.

Lemma readTar_complete (cb : TarCallback) k turns reader w es r1 u1 :
  handed cb k reader (user w) = Some (es, r1, u1) → pending r1 = [] → (k < turns)%nat →
  readTar turns reader (Some cb) w
  = ((Returned (at_end r1), r1), visited tarEntry w es u1).
Proof.
  intros Hk Hnil Hlt. replace turns with (k + S (turns - S k))%nat by lia.
  rewrite (readTar_handed _ _ _ _ _ _ _ _ Hk), readTar_S, (Next_nil _ Hnil).
  unfold at_end. by case_decide.
Qed.

Lemma readTar_stops (cb : TarCallback) k turns reader w pre r1 u1 h r1' r2 u2 e :
  handed cb k reader (user w) = Some (pre, r1, u1) →
  Next r1 = (inr h, r1') → cb r1' h u1 = (r2, u2, Some e) → (k < turns)%nat →
  readTar turns reader (Some cb) w
  = ((Returned (Some e), r2), stopped tarEntry w pre h u2).
Proof.
  intros Hk Hn Hcb Hlt. replace turns with (k + S (turns - S k))%nat by lia.
  rewrite (readTar_handed _ _ _ _ _ _ _ _ Hk), readTar_S, Hn.
  unfold invokeTar. cbn [user visited]. rewrite Hcb.
  rewrite stopped_visited. f_equal. unfold visited. cbn [typeInfoMap calls].
  by rewrite fmap_app, app_assoc.
Qed.

(** Either the loop hands entries to the callback for [turns] turns, or
    there is a turn before at which the reader has no header left or the
    callback returns an error. *)
Lemma handed_or_stop (cb : TarCallback) turns reader u :
  (∃ es r1 u1, handed cb turns reader u = Some (es, r1, u1))
  ∨ (∃ k es r1 u1, (k < turns)%nat ∧ handed cb k reader u = Some (es, r1, u1)
       ∧ (pending r1 = []
          ∨ ∃ h r1' r2 u2 e, Next r1 = (inr h, r1') ∧ cb r1' h u1 = (r2, u2, Some e))).
Proof.
  induction turns as [|turns IH]; [left; by exists [], reader, u|].
  destruct IH as [(es & r1 & u1 & Hk) | (k & es & r1 & u1 & Hlt & Hk & Hend)].
  - destruct (pending r1) as [|h rest] eqn:Hp.
    + right. exists turns, es, r1, u1. split; [lia|]. split; [done|]. by left.
    + pose proof (Next_cons _ _ _ Hp) as Hn.
      destruct (cb (TarReader rest (final r1)) h u1) as [[r2 u2] [e|]] eqn:Hcb.
      * right. exists turns, es, r1, u1. split; [lia|]. split; [done|]. right.
        by exists h, (TarReader rest (final r1)), r2, u2, e.
      * left. exists (es ++ [h]), r2, u2. by eapply handed_snoc.
  - right. exists k, es, r1, u1. split; [lia|]. by split.
Qed.

(** What [readTar] has done after [turns] turns, whatever the callback. *)
Lemma readTar_outcome (cb : TarCallback) turns reader w :
  (∃ es r1 u1, handed cb turns reader (user w) = Some (es, r1, u1)
     ∧ readTar turns reader (Some cb) w = ((Running, r1), visited tarEntry w es u1))
  ∨ (∃ k es r1 u1, (k < turns)%nat ∧ handed cb k reader (user w) = Some (es, r1, u1)
       ∧ pending r1 = []
       ∧ readTar turns reader (Some cb) w
         = ((Returned (at_end r1), r1), visited tarEntry w es u1))
  ∨ (∃ k pre r1 u1 h r1' r2 u2 e,
       (k < turns)%nat ∧ handed cb k reader (user w) = Some (pre, r1, u1)
       ∧ Next r1 = (inr h, r1') ∧ cb r1' h u1 = (r2, u2, Some e)
       ∧ readTar turns reader (Some cb) w
         = ((Returned (Some e), r2), visited tarEntry w (pre ++ [h]) u2)).
Proof.
  destruct (handed_or_stop cb turns reader (user w))
    as [(es & r1 & u1 & Hk)
       | (k & es & r1 & u1 & Hlt & Hk & [Hnil | (h & r1' & r2 & u2 & e & Hn & Hcb)])].
  - left. exists es, r1, u1. split; [done|]. by apply readTar_running.
  - right. left. exists k, es, r1, u1. repeat split; try done.
    by eapply readTar_complete.
  - right. right. exists k, es, r1, u1, h, r1', r2, u2, e. repeat split; try done.
    rewrite <-stopped_visited. by eapply readTar_stops.
Qed.

(** Once [readTar] has returned, more turns change nothing. *)
Lemma readTar_Returned_more_turns (cb : TarCallback) turns turns' reader w err r w' :
  readTar turns reader (Some cb) w = ((Returned err, r), w') → (turns ≤ turns')%nat →
  readTar turns' reader (Some cb) w = ((Returned err, r), w').
Proof.
  intros Hr Hle.
  destruct (readTar_outcome cb turns reader w)
    as [(es & r1 & u1 & Hk & Hrun)
       | [(k & es & r1 & u1 & Hlt & Hk & Hnil & Hret)
         | (k & pre & r1 & u1 & h & r1' & r2 & u2 & e & Hlt & Hk & Hn & Hcb & Hret)]].
  - rewrite Hrun in Hr. done.
  - rewrite Hret in Hr. rewrite <-Hr. eapply readTar_complete; [done..|lia].
  - rewrite Hret in Hr. rewrite <-Hr, <-stopped_visited.
    eapply readTar_stops; [done..|lia].
Qed.


(** A callback that leaves the reader alone is handed the entries of the
    archive one after the other. *)
Lemma handed_leaves_reader (cb : TarCallback) k reader u es r1 u1 :
  leaves_reader cb → handed cb k reader u = Some (es, r1, u1) →
  (k ≤ length (pending reader))%nat ∧ es = take k (pending reader)
  ∧ r1 = TarReader (drop k (pending reader)) (final reader).
Proof.
  intros Hl. revert reader u es. induction k as [|k IH]; intros reader u es Hk.
  - simpl in Hk. simplify_eq. split; [lia|]. split; [done|]. by destruct r1.
  - rewrite handed_S in Hk. destruct (pending reader) as [|h rest] eqn:Hp.
    + by rewrite (Next_nil _ Hp) in Hk.
    + rewrite (Next_cons _ _ _ Hp) in Hk.
      pose proof (Hl (TarReader rest (final reader)) h u) as Hr.
      destruct (cb (TarReader rest (final reader)) h u) as [[r0 u0] [err|]]; [done|].
      simpl in Hr. subst r0.
      destruct (handed cb k _ u0) as [[[es' r] u']|] eqn:Hk'; [|done].
      simpl in Hk. simplify_eq.
      destruct (IH _ _ _ Hk') as (Hle & -> & ->). simpl in *.
      split; [lia|]. done.
Qed.

Lemma leaves_reader_on_header (cb : Header → UserState → UserState * option error) :
  leaves_reader (on_header cb).
Proof. intros reader h u. unfold on_header. by destruct (cb h u). Qed.

Lemma leaves_reader_advances (cb : TarCallback) : leaves_reader cb → advances_reader cb.
Proof. intros Hl reader h u. exists 0%nat. apply Hl. Qed.

(** For a callback that reads the header only, the turns in which it
    returns [nil] are those of [thread]. *)
Lemma handed_on_header (cb : Header → UserState → UserState * option error)
    pre post fin u u1 :
  thread cb pre u = Some u1 →
  handed (on_header cb) (length pre) (TarReader (pre ++ post) fin) u
  = Some (pre, TarReader post fin, u1).
Proof.
  revert u. induction pre as [|h pre IH]; intros u Hth; simpl in Hth.
  - by simplify_eq.
  - cbn [length]. rewrite handed_S. unfold Next. cbn [pending final app].
    unfold on_header at 1. destruct (cb h u) as [u' [err|]]; [done|].
    by rewrite (IH _ Hth).
Qed.

Lemma handed_on_header_reader (cb : Header → UserState → UserState * option error)
    reader pre post u u1 :
  pending reader = pre ++ post → thread cb pre u = Some u1 →
  handed (on_header cb) (length pre) reader u
  = Some (pre, TarReader post (final reader), u1).
Proof.
  intros Hp Hth. destruct reader as [p f]. simpl in *. subst p.
  by apply handed_on_header.
Qed.

(** A callback that only calls [Next] is handed entries of the archive,
    in the order of the archive. *)
Lemma handed_advances (cb : TarCallback) k reader u es r1 u1 :
  advances_reader cb → handed cb k reader u = Some (es, r1, u1) →
  ∃ n, pending r1 = drop n (pending reader) ∧ final r1 = final reader
       ∧ es `sublist_of` take n (pending reader).
Proof.
  intros Ha. revert reader u es. induction k as [|k IH]; intros reader u es Hk.
  - simpl in Hk. simplify_eq. exists 0%nat. by rewrite drop_0, take_0.
  - rewrite handed_S in Hk. destruct (pending reader) as [|h rest] eqn:Hp.
    + by rewrite (Next_nil _ Hp) in Hk.
    + rewrite (Next_cons _ _ _ Hp) in Hk.
      destruct (Ha (TarReader rest (final reader)) h u) as [m Hm].
      destruct (cb (TarReader rest (final reader)) h u) as [[r0 u0] [err|]]; [done|].
      simpl in Hm. rewrite advanced_drop in Hm. cbn [pending final] in Hm. subst r0.
      destruct (handed cb k _ u0) as [[[es' r] u']|] eqn:Hk'; [|done].
      simpl in Hk. simplify_eq.
      destruct (IH _ _ _ Hk') as (n & Hpn & Hfn & Hsub). cbn [pending final] in *.
      exists (S (m + n)). rewrite Hpn, Hfn, drop_drop. cbn [drop take].
      split; [done|]. split; [done|]. constructor.
      etrans; [exact Hsub|]. rewrite <-take_take_drop. by apply sublist_inserts_l.
Qed.

Lemma WalkZip_range_stops (cb : ZipCallback) pre z post w u1 u2 e :
  thread cb pre (user w) = Some u1 → cb z u1 = (u2, Some e) →
  WalkZip_range (pre ++ z :: post) (Some cb) w = (Some e, stopped zipEntry w pre z u2).
Proof.
  revert w. induction pre as [|x pre IH]; intros w Hpre Hz; simpl in *.
  - simplify_eq. unfold mbind, M_bind, invoke. rewrite Hz. done.
  - unfold mbind, M_bind, invoke.
    destruct (cb x (user w)) as [u' [err|]] eqn:Hx; [done|].
    rewrite (IH (World (typeInfoMap w) u' (calls w ++ [zipEntry x]))) by done.
    unfold stopped. simpl. by rewrite <-app_assoc.
Qed.


Lemma open_unfold path w : open path w = (os_Open (user w) path, w).
Proof. reflexivity. Qed.

Lemma zip_OpenReader_unfold path w :
  zip_OpenReader path w =
    (match os_Open (user w) path with
     | inl err => inl err
     | inr f => zip_readDirectory f
     end, w).
Proof.
  unfold zip_OpenReader, mbind, M_bind, get_user. by destruct (os_Open _ _).
Qed.


Local Ltac walk :=
  autounfold with walkers; unfold mbind, M_bind;
  rewrite ?open_unfold, ?zip_OpenReader_unfold.

Local Abbreviation WalkTar := (WalkTar os_Open tar_NewReader).
Local Abbreviation WalkTarBzip2 := (WalkTarBzip2 os_Open bzip2_NewReader tar_NewReader).
Local Abbreviation WalkTarGz := (WalkTarGz os_Open gzip_NewReader tar_NewReader).
Local Abbreviation WalkTarXz := (WalkTarXz os_Open xz_NewReader tar_NewReader).
Local Abbreviation WalkZip := (WalkZip os_Open zip_readDirectory).
Local Abbreviation run_call :=
  (run_call MapToLower os_Open gzip_NewReader xz_NewReader bzip2_NewReader
     zip_readDirectory tar_NewReader).
Local Abbreviation program :=
  (program MapToLower os_Open gzip_NewReader xz_NewReader bzip2_NewReader
     zip_readDirectory tar_NewReader).
Local Abbreviation states :=
  (states MapToLower os_Open gzip_NewReader xz_NewReader bzip2_NewReader
     zip_readDirectory tar_NewReader).

(** What each tar walker does once the file is open and the decoder
    built: it returns what [readTar] returns on the reader. *)
Lemma WalkTar_readTar turns path w file cb :
  os_Open (user w) path = inr file →
  WalkTar turns path cb w
  = ((readTar turns (tar_NewReader file) cb w).1.1,
     (readTar turns (tar_NewReader file) cb w).2).
Proof. intros Hopen. walk. rewrite Hopen. by destruct (readTar _ _ _ _) as [[o r] w']. Qed.

Lemma WalkTarBzip2_readTar turns path w file cb :
  os_Open (user w) path = inr file →
  WalkTarBzip2 turns path cb w
  = ((readTar turns (tar_NewReader (bzip2_NewReader file)) cb w).1.1,
     (readTar turns (tar_NewReader (bzip2_NewReader file)) cb w).2).
Proof. intros Hopen. walk. rewrite Hopen. by destruct (readTar _ _ _ _) as [[o r] w']. Qed.

Lemma WalkTarGz_readTar turns path w file r cb :
  os_Open (user w) path = inr file → gzip_NewReader file = inr r →
  WalkTarGz turns path cb w
  = ((readTar turns (tar_NewReader r) cb w).1.1, (readTar turns (tar_NewReader r) cb w).2).
Proof.
  intros Hopen Hr. walk. rewrite Hopen, Hr. by destruct (readTar _ _ _ _) as [[o r'] w'].
Qed.

Lemma WalkTarXz_readTar turns path w file r cb :
  os_Open (user w) path = inr file → xz_NewReader file = inr r →
  WalkTarXz turns path cb w
  = ((readTar turns (tar_NewReader r) cb w).1.1, (readTar turns (tar_NewReader r) cb w).2).
Proof.
  intros Hopen Hr. walk. rewrite Hopen, Hr. by destruct (readTar _ _ _ _) as [[o r'] w'].
Qed.

(** Claim C7.  On an archive that opens (and whose decoder is built), when
    the callback returns [nil] on the entries [pre] and the error [e] on
    the next entry, each of the five walkers returns [e] itself, and the
    callback has run on [pre] and on that entry only: the entries after it
    were not visited.  For a tar archive this holds whatever the callback
    does with the reader: [pre] are the entries the loop handed to it in
    the turns before, [h] the header [Next] returns then; for a callback
    that reads the header and the body only, [pre] and [h] are the first
    entries of the archive. *)
Theorem callback_error_stops_walk path w file u1 u2 e :
  os_Open (user w) path = inr file →
  (∀ (cb : TarCallback) k turns pre r1 r1' r2 h,
     Next r1 = (inr h, r1') → cb r1' h u1 = (r2, u2, Some e) → (k < turns)%nat →
     (handed cb k (tar_NewReader file) (user w) = Some (pre, r1, u1) →
      WalkTar turns path (Some cb) w = (Returned (Some e), stopped tarEntry w pre h u2))
     ∧ (handed cb k (tar_NewReader (bzip2_NewReader file)) (user w) = Some (pre, r1, u1) →
        WalkTarBzip2 turns path (Some cb) w
        = (Returned (Some e), stopped tarEntry w pre h u2))
     ∧ (∀ r, gzip_NewReader file = inr r →
             handed cb k (tar_NewReader r) (user w) = Some (pre, r1, u1) →
             WalkTarGz turns path (Some cb) w
             = (Returned (Some e), stopped tarEntry w pre h u2))
     ∧ (∀ r, xz_NewReader file = inr r →
             handed cb k (tar_NewReader r) (user w) = Some (pre, r1, u1) →
             WalkTarXz turns path (Some cb) w
             = (Returned (Some e), stopped tarEntry w pre h u2)))
  ∧ (∀ (cb : Header → UserState → UserState * option error) turns pre h post,
       thread cb pre (user w) = Some u1 → cb h u1 = (u2, Some e) →
       (length pre < turns)%nat →
       (pending (tar_NewReader file) = pre ++ h :: post →
        WalkTar turns path (Some (on_header cb)) w
        = (Returned (Some e), stopped tarEntry w pre h u2))
       ∧ (pending (tar_NewReader (bzip2_NewReader file)) = pre ++ h :: post →
          WalkTarBzip2 turns path (Some (on_header cb)) w
          = (Returned (Some e), stopped tarEntry w pre h u2))
       ∧ (∀ r, gzip_NewReader file = inr r →
               pending (tar_NewReader r) = pre ++ h :: post →
               WalkTarGz turns path (Some (on_header cb)) w
               = (Returned (Some e), stopped tarEntry w pre h u2))
       ∧ (∀ r, xz_NewReader file = inr r →
               pending (tar_NewReader r) = pre ++ h :: post →
               WalkTarXz turns path (Some (on_header cb)) w
               = (Returned (Some e), stopped tarEntry w pre h u2)))
  ∧ (∀ (cb : ZipCallback) pre z post,
       thread cb pre (user w) = Some u1 → cb z u1 = (u2, Some e) →
       zip_readDirectory file = inr (pre ++ z :: post) →
       WalkZip path (Some cb) w = (Some e, stopped zipEntry w pre z u2)).
Proof.
  intros Hopen. split; [|split].
  - intros cb k turns pre r1 r1' r2 h Hn Hcb Hlt. split; [|split; [|split]].
    + intros Hk. rewrite (WalkTar_readTar _ _ _ _ _ Hopen).
      by rewrite (readTar_stops _ _ _ _ _ _ _ _ _ _ _ _ _ Hk Hn Hcb Hlt).
    + intros Hk. rewrite (WalkTarBzip2_readTar _ _ _ _ _ Hopen).
      by rewrite (readTar_stops _ _ _ _ _ _ _ _ _ _ _ _ _ Hk Hn Hcb Hlt).
    + intros r Hr Hk. rewrite (WalkTarGz_readTar _ _ _ _ _ _ Hopen Hr).
      by rewrite (readTar_stops _ _ _ _ _ _ _ _ _ _ _ _ _ Hk Hn Hcb Hlt).
    + intros r Hr Hk. rewrite (WalkTarXz_readTar _ _ _ _ _ _ Hopen Hr).
      by rewrite (readTar_stops _ _ _ _ _ _ _ _ _ _ _ _ _ Hk Hn Hcb Hlt).
  - intros cb turns pre h post Hth Hcb Hlt.
    assert (∀ reader, pending reader = pre ++ h :: post →
              readTar turns reader (Some (on_header cb)) w
              = ((Returned (Some e), TarReader post (final reader)),
                 stopped tarEntry w pre h u2)) as Hloop.
    { intros reader Hp.
      eapply (readTar_stops _ (length pre)); [by apply handed_on_header_reader | | | done].
      - reflexivity.
      - unfold on_header. by rewrite Hcb. }
    split; [|split; [|split]].
    + intros Hp. by rewrite (WalkTar_readTar _ _ _ _ _ Hopen), (Hloop _ Hp).
    + intros Hp. by rewrite (WalkTarBzip2_readTar _ _ _ _ _ Hopen), (Hloop _ Hp).
    + intros r Hr Hp. by rewrite (WalkTarGz_readTar _ _ _ _ _ _ Hopen Hr), (Hloop _ Hp).
    + intros r Hr Hp. by rewrite (WalkTarXz_readTar _ _ _ _ _ _ Hopen Hr), (Hloop _ Hp).
  - intros cb pre z post Hpre Hz Hdir. walk. rewrite Hopen, Hdir.
    by eapply WalkZip_range_stops.
Qed.

(** Claim C8.  When the path cannot be opened, each of the five walkers
    returns the error built from [fmtErrArchiveOpen] and the cause, whose
    message is "archive: failed to open archive: " followed by the message
    of the cause, and leaves the state as it was: the callback was not
    invoked. *)
Theorem open_failure path w cause turns (tcb : option TarCallback)
    (zcb : option ZipCallback) :
  os_Open (user w) path = inl cause →
  WalkTar turns path tcb w = (Returned (Some (fmt_Errorf fmtErrArchiveOpen cause)), w)
  ∧ WalkTarBzip2 turns path tcb w = (Returned (Some (fmt_Errorf fmtErrArchiveOpen cause)), w)
  ∧ WalkTarGz turns path tcb w = (Returned (Some (fmt_Errorf fmtErrArchiveOpen cause)), w)
  ∧ WalkTarXz turns path tcb w = (Returned (Some (fmt_Errorf fmtErrArchiveOpen cause)), w)
  ∧ WalkZip path zcb w = (Some (fmt_Errorf fmtErrArchiveOpen cause), w)
  ∧ Error (fmt_Errorf fmtErrArchiveOpen cause)
    = "archive: failed to open archive: " +:+ Error cause
  ∧ classify (fmt_Errorf fmtErrArchiveOpen cause) = OpenFailure.
Proof.
  intros Hopen.
  do 5 (split; [walk; by rewrite Hopen|]).
  split; [apply Sprintf_fmtErrArchiveOpen | apply classify_open].
Qed.


(** Claim C10.  When the file opens and the constructor of the gzip (resp.
    xz) decoder rejects it, [WalkTarGz] (resp. [WalkTarXz]) returns the
    error built from [fmtErrNewGzReader] (resp. [fmtErrNewXzReader]) and
    the cause, without invoking the callback; a caller tells this error
    from every open-failure error by its message, whatever the causes. *)
Theorem decoder_failure_distinct path w file cause turns (cb : option TarCallback) :
  os_Open (user w) path = inr file →
  (gzip_NewReader file = inl cause →
   WalkTarGz turns path cb w = (Returned (Some (fmt_Errorf fmtErrNewGzReader cause)), w))
  ∧ (xz_NewReader file = inl cause →
     WalkTarXz turns path cb w = (Returned (Some (fmt_Errorf fmtErrNewXzReader cause)), w))
  ∧ classify (fmt_Errorf fmtErrNewGzReader cause) = GzReaderFailure
  ∧ classify (fmt_Errorf fmtErrNewXzReader cause) = XzReaderFailure
  ∧ (∀ cause', classify (fmt_Errorf fmtErrArchiveOpen cause') = OpenFailure)
  ∧ (∀ cause', fmt_Errorf fmtErrNewGzReader cause ≠ fmt_Errorf fmtErrArchiveOpen cause')
  ∧ (∀ cause', fmt_Errorf fmtErrNewXzReader cause ≠ fmt_Errorf fmtErrArchiveOpen cause').
Proof.
  intros Hopen.
  split; [intros Hgz; walk; by rewrite Hopen, Hgz|].
  split; [intros Hxz; walk; by rewrite Hopen, Hxz|].
  split; [apply classify_gz|]. split; [apply classify_xz|].
  split; [apply classify_open|]. split.
  - intros cause' Heq. pose proof (classify_gz cause) as Hc.
    rewrite Heq, classify_open in Hc. done.
  - intros cause' Heq. pose proof (classify_xz cause) as Hc.
    rewrite Heq, classify_open in Hc. done.
Qed.

Lemma invoke_typeInfoMap {E} (log : E → entry) cb (x : E) w :
  typeInfoMap (invoke log cb x w).2 = typeInfoMap w.
Proof. unfold invoke. by destruct (cb x (user w)). Qed.

Lemma invokeTar_typeInfoMap (cb : TarCallback) reader h w :
  typeInfoMap (invokeTar cb reader h w).2 = typeInfoMap w.
Proof. unfold invokeTar. by destruct (cb reader h (user w)) as [[r u] err]. Qed.

Lemma readTar_typeInfoMap turns reader (callback : option TarCallback) w :
  typeInfoMap (readTar turns reader callback w).2 = typeInfoMap w.
Proof.
  revert reader w. induction turns as [|turns IH]; intros reader w; [done|].
  rewrite readTar_S. destruct (Next reader) as [[err|h] reader'].
  - by case_decide.
  - destruct callback as [cb|]; [|apply IH].
    pose proof (invokeTar_typeInfoMap cb reader' h w) as Hi.
    destruct (invokeTar cb reader' h w) as [[r'' [err|]] w']; simpl in *; [done|].
    by rewrite IH.
Qed.

Lemma WalkZip_range_typeInfoMap files (callback : option ZipCallback) w :
  typeInfoMap (WalkZip_range files callback w).2 = typeInfoMap w.
Proof.
  revert w. induction files as [|z rest IH]; intros w; simpl; [done|].
  destruct callback as [cb|]; [|apply IH].
  unfold mbind, M_bind. pose proof (invoke_typeInfoMap zipEntry cb z w) as Hi.
  destruct (invoke zipEntry cb z w) as [[err|] w']; simpl in *; [done|].
  by rewrite IH.
Qed.

Lemma run_call_typeInfoMap c w : typeInfoMap (run_call c w).2 = typeInfoMap w.
Proof.
  destruct c as [ρ f | n p cb | n p cb | n p cb | n p cb | p cb]; simpl.
  - done.
  - walk. unfold mbind, M_bind. walk.
    destruct (os_Open _ _); [done|].
    pose proof (readTar_typeInfoMap n (tar_NewReader s) cb w) as Hl.
    by destruct (readTar _ _ _ _) as [[o r] w'].
  - walk. unfold mbind, M_bind. walk.
    destruct (os_Open _ _); [done|].
    pose proof (readTar_typeInfoMap n (tar_NewReader (bzip2_NewReader s)) cb w) as Hl.
    by destruct (readTar _ _ _ _) as [[o r] w'].
  - walk. unfold mbind, M_bind. walk.
    destruct (os_Open _ _); [done|]. destruct (gzip_NewReader _) as [|r]; [done|].
    pose proof (readTar_typeInfoMap n (tar_NewReader r) cb w) as Hl.
    by destruct (readTar _ _ _ _) as [[o r'] w'].
  - walk. unfold mbind, M_bind. walk.
    destruct (os_Open _ _); [done|]. destruct (xz_NewReader _) as [|r]; [done|].
    pose proof (readTar_typeInfoMap n (tar_NewReader r) cb w) as Hl.
    by destruct (readTar _ _ _ _) as [[o r'] w'].
  - walk. unfold mbind, M_bind. walk.
    destruct (os_Open _ _); [done|]. destruct (zip_readDirectory _) as [|files]; [done|].
    pose proof (WalkZip_range_typeInfoMap files cb w) as Hl.
    by destruct (WalkZip_range _ _ _).
Qed.

Lemma states_typeInfoMap cs w :
  Forall (λ w', typeInfoMap w' = typeInfoMap w) (states cs w).
Proof.
  revert w. induction cs as [|c cs IH]; intros w; simpl.
  - by repeat constructor.
  - constructor; [done|]. eapply Forall_impl; [apply IH|].
    intros w' ->. apply run_call_typeInfoMap.
Qed.

(** Claim C6.  [init] runs before any call and leaves the five types with
    their suffixes in [typeInfoMap]; in every state a sequence of calls of
    [DetermineType] and of the walkers goes through afterwards the table
    is the one [init] left; and no call changes the table, from whatever
    state it starts. *)
Theorem typeInfoMap_read_only cs w0 :
  (∀ T s, (T, s) ∈ suffix_table ↔
          ∃ info, typeInfoMap (init w0).2 !! T = Some info ∧ s ∈ extensions info)
  ∧ Forall (λ w, typeInfoMap w = typeInfoMap (init w0).2) (program cs w0)
  ∧ (∀ c w, typeInfoMap (run_call c w).2 = typeInfoMap w).
Proof.
  split; [|split].
  - intros T s. rewrite suffix_table_init_table.
    by setoid_rewrite (initialized_lookup (init w0).2 _ _ (initialized_init w0)).
  - apply states_typeInfoMap.
  - apply run_call_typeInfoMap.
Qed.

End Facts.
(** ** The properties on the sample environment *)

Section OnSample.

Import Sample.

Local Abbreviation DetermineType := (@DetermineType MapToLower nat string string).
Local Abbreviation DetermineType_traced := (@DetermineType_traced MapToLower nat string string).
Local Abbreviation WalkTar := (WalkTar os_Open tar_NewReader).
Local Abbreviation WalkTarBzip2 := (WalkTarBzip2 os_Open bzip2_NewReader tar_NewReader).
Local Abbreviation WalkTarGz := (WalkTarGz os_Open gzip_NewReader tar_NewReader).
Local Abbreviation WalkTarXz := (WalkTarXz os_Open xz_NewReader tar_NewReader).
Local Abbreviation WalkZip := (WalkZip os_Open zip_readDirectory).

(** [TestDetermineType]: every line of the table of the test, in three
    orders of the loop. *)
Example TestDetermineType :
  Forall (λ '(filename, expectedType, expectedError),
            ∀ ρ, ρ ∈ [map_to_list; ascending; descending] →
                 DetermineType ρ filename w0 = (Some (expectedType, expectedError), w0))
         types.
Proof.
  repeat constructor; intros ρ Hρ; rewrite !elem_of_cons, elem_of_nil in Hρ;
    destruct Hρ as [-> | [-> | [-> | []]]]; by vm_compute.
Qed.

(** [ExampleDetermineType]. *)
Example ExampleDetermineType :
  ∃ typ, DetermineType map_to_list "sample.tar.gz" w0 = (Some (typ, None), w0)
         ∧ String_ typ = "TarGz".
Proof. exists TarGz. by vm_compute. Qed.

(** [ExampleWalkTar] and its siblings: the names the callback sees, in
    order. *)
Example ExampleWalkTar turns :
  (3 < turns)%nat →
  WalkTar turns "testdata/sample.tar" (Some (on_header count)) w0
  = (Returned None,
     World (typeInfoMap w0) 3%nat
       (tarEntry <$> ["sample/text/lorem.txt"; "sample/text/"; "sample/"])).
Proof. intros Hlt. do 4 (destruct turns as [|turns]; [lia|]). reflexivity. Qed.

Example ExampleWalkZip :
  WalkZip "testdata/sample.zip" (Some count) w0
  = (None, World (typeInfoMap w0) 3%nat
             (zipEntry <$> ["sample/"; "sample/text/"; "sample/text/lorem.txt"])).
Proof. reflexivity. Qed.

(** [TestWalkTar]: an invalid tar file. *)
Example TestWalkTar_invalid turns :
  (0 < turns)%nat →
  WalkTar turns "testdata/invalid.tar" (Some (on_header count)) w0
  = (Returned (Some (foreign 3 "archive/tar: invalid tar header")), w0).
Proof. intros Hlt. destruct turns as [|turns]; [lia|]. reflexivity. Qed.

(** A callback that calls [Next] on the reader it is handed: the loop
    does not see the entry in between. *)
Example skipping_walk turns :
  (2 < turns)%nat →
  WalkTarGz turns "testdata/sample.tar.gz" (Some skipping) w0
  = (Returned None,
     World (typeInfoMap w0) 2%nat (tarEntry <$> ["sample/"; "sample/text/lorem.txt"])).
Proof. intros Hlt. do 3 (destruct turns as [|turns]; [lia|]). reflexivity. Qed.

(** A callback that puts the reader back before the entry it was handed:
    the loop hands it that entry again, turn after turn, and the walker
    does not return. *)
Example rewinding_walk turns :
  WalkTar turns "testdata/sample.tar" (Some rewinding) w0
  = (Running,
     World (typeInfoMap w0) turns (replicate turns (tarEntry "sample/text/lorem.txt"))).
Proof.
  assert (∀ n (w : @world nat string string),
    readTar n (tar_NewReader (Stream_ Tar (reverse sample_names) io_EOF)) (Some rewinding) w
    = ((Running, tar_NewReader (Stream_ Tar (reverse sample_names) io_EOF)),
       World (typeInfoMap w) (n + user w)%nat
         (calls w ++ replicate n (tarEntry "sample/text/lorem.txt")))) as Hloop.
  { induction n as [|n IH]; intros w.
    - destruct w. simpl. by rewrite app_nil_r.
    - rewrite readTar_S.
      change (Next (tar_NewReader (Stream_ Tar (reverse sample_names) io_EOF)))
        with (inr (B := string) "sample/text/lorem.txt" : error + string,
              TarReader ["sample/text/"; "sample/"] io_EOF).
      cbn [invokeTar rewinding]. cbn beta iota.
      change (TarReader ("sample/text/lorem.txt" :: _) _)
        with (tar_NewReader (Stream_ Tar (reverse sample_names) io_EOF)).
      rewrite IH. cbn [typeInfoMap user calls]. f_equal. f_equal; [lia|].
      by rewrite <-app_assoc. }
  rewrite (WalkTar_readTar os_Open tar_NewReader turns "testdata/sample.tar" w0
             (Stream_ Tar (reverse sample_names) io_EOF)) by reflexivity.
  rewrite Hloop. cbn [fst snd]. f_equal.
  f_equal. change (user w0) with 0%nat. lia.
Qed.

Lemma range_order_map_to_list (m : gmap Type_ typeInfo) : range_order map_to_list m.
Proof. unfold range_order. reflexivity. Qed.

Lemma range_order_ascending (m : gmap Type_ typeInfo) : range_order ascending m.
Proof. apply ascending_Permutation. Qed.

Lemma range_order_descending (m : gmap Type_ typeInfo) : range_order descending m.
Proof. apply descending_Permutation. Qed.

Lemma lowerASCII_idempotent s : lowerASCII (lowerASCII s) = lowerASCII s.
Proof.
  induction s as [|c s IH]; simpl; [done|]. rewrite IH. f_equal.
  by destruct c as [[] [] [] [] [] [] [] []].
Qed.

Lemma MapToLower_stable t :
  isASCII t = false → ToLower MapToLower (MapToLower t) = MapToLower t.
Proof.
  intros Ht. unfold ToLower, MapToLower.
  by rewrite isASCII_lowerASCII, Ht, lowerASCII_idempotent.
Qed.

Lemma DetermineType_suffix_table_witness :
  range_order descending (typeInfoMap w0) ∧ initialized w0
  ∧ DetermineType descending "Backup.TAR.GZ" w0 = (Some (TarGz, None), w0)
  ∧ DetermineType descending "foo.tar1" w0 = (Some (0%N, Some ErrUnknownType), w0).
Proof.
  assert (range_order descending (typeInfoMap w0)) as Hρ
    by (by apply (bool_decide_unpack _); vm_compute).
  assert (initialized w0) as Hi by reflexivity.
  split; [exact Hρ|]. split; [exact Hi|]. split.
  - apply (proj1 (proj2 (DetermineType_suffix_table MapToLower descending w0
                           "Backup.TAR.GZ" Hρ Hi)) TarGz ".tar.gz").
    + by apply (bool_decide_unpack _).
    + by vm_compute.
  - apply (proj1 (proj2 (proj2 (DetermineType_suffix_table MapToLower descending w0
                                  "foo.tar1" Hρ Hi)))).
    intros T s Hs.
    assert (Forall (λ p, HasSuffix (ToLower MapToLower "foo.tar1") p.2 = false) suffix_table)
      as Hall by (by apply (bool_decide_unpack _)).
    rewrite Forall_forall in Hall. apply (Hall (T, s) Hs).
Defined.

Lemma DetermineType_true_end_witness :
  range_order descending (typeInfoMap w0) ∧ initialized w0
  ∧ DetermineType descending "foo.zip.tar.xz" w0 = (Some (TarXz, None), w0)
  ∧ DetermineType descending "foo.tar.xz.zip" w0 = (Some (Zip, None), w0).
Proof.
  assert (range_order descending (typeInfoMap w0)) as Hρ
    by (by apply (bool_decide_unpack _); vm_compute).
  assert (initialized w0) as Hi by reflexivity.
  split; [exact Hρ|]. split; [exact Hi|].
  exact (proj2 (DetermineType_true_end MapToLower descending w0 Hρ Hi)).
Defined.

(** Claim C3, as stated, fails: on "foo.zip", a loop that takes the types
    in decreasing order tries [Zip] first and nothing else, which is not
    the declared order, and a loop that takes them in increasing order
    tries all five: the types tried are neither in the declared order nor
    the same for every order the loop may take. *)
Lemma tried_not_in_declared_order :
  ¬ (∀ ρ f, range_order ρ (typeInfoMap w0) →
            (DetermineType_traced ρ f w0).1.1 `prefix_of` declared_order)
  ∧ ¬ (∀ ρ1 ρ2 f, range_order ρ1 (typeInfoMap w0) → range_order ρ2 (typeInfoMap w0) →
                  (DetermineType_traced ρ1 f w0).1.1 = (DetermineType_traced ρ2 f w0).1.1).
Proof.
  split.
  - intros H. specialize (H descending "foo.zip" (range_order_descending _)).
    vm_compute in H. destruct H as [k Hk]. discriminate Hk.
  - intros H.
    specialize (H descending ascending "foo.zip"
                  (range_order_descending _) (range_order_ascending _)).
    vm_compute in H. discriminate H.
Qed.

Lemma DetermineType_tried_in_range_order_witness :
  range_order descending (typeInfoMap w0) ∧ initialized w0
  ∧ (DetermineType_traced descending "foo.tar.xz.zip" w0).1.1 `prefix_of` [Zip; TarXz; TarGz; TarBz2; Tar]
  ∧ (DetermineType_traced ascending "foo.tar.xz.zip" w0).1.2
    = (DetermineType_traced descending "foo.tar.xz.zip" w0).1.2.
Proof.
  assert (range_order descending (typeInfoMap w0)) as Hρ
    by (by apply (bool_decide_unpack _); vm_compute).
  assert (initialized w0) as Hi by reflexivity.
  destruct (DetermineType_tried_in_range_order MapToLower descending w0
              "foo.tar.xz.zip" Hρ Hi) as (_ & Hprefix & _ & _ & Hsame).
  split; [exact Hρ|]. split; [exact Hi|]. split.
  - exact Hprefix.
  - apply Hsame, range_order_ascending.
Defined.

Lemma DetermineType_independent_of_order_witness :
  range_order ascending (typeInfoMap w0) ∧ range_order descending (typeInfoMap w0)
  ∧ initialized w0
  ∧ DetermineType ascending "foo.tbz2" w0 = DetermineType descending "foo.tbz2" w0.
Proof.
  assert (range_order ascending (typeInfoMap w0)) as H1
    by (by apply (bool_decide_unpack _); vm_compute).
  assert (range_order descending (typeInfoMap w0)) as H2
    by (by apply (bool_decide_unpack _); vm_compute).
  assert (initialized w0) as Hi by reflexivity.
  split; [exact H1|]. split; [exact H2|]. split; [exact Hi|].
  exact (proj1 (DetermineType_independent_of_order MapToLower ascending descending
                  w0 "foo.tbz2" H1 H2 Hi)).
Defined.

Lemma DetermineType_case_insensitive_witness :
  (∀ t, isASCII t = false → ToLower MapToLower (MapToLower t) = MapToLower t)
  ∧ range_order ascending (typeInfoMap w0) ∧ range_order descending (typeInfoMap w0)
  ∧ initialized w0
  ∧ DetermineType ascending "Café.Tar.BZ2" w0
    = DetermineType descending (ToLower MapToLower "Café.Tar.BZ2") w0.
Proof.
  assert (range_order ascending (typeInfoMap w0)) as H1
    by (by apply (bool_decide_unpack _); vm_compute).
  assert (range_order descending (typeInfoMap w0)) as H2
    by (by apply (bool_decide_unpack _); vm_compute).
  assert (initialized w0) as Hi by reflexivity.
  split; [exact MapToLower_stable|].
  split; [exact H1|]. split; [exact H2|]. split; [exact Hi|].
  exact (proj1 (proj2 (DetermineType_case_insensitive MapToLower ascending descending
                         w0 H1 H2 Hi)) MapToLower_stable "Café.Tar.BZ2").
Defined.

Lemma callback_error_stops_walk_witness :
  os_Open (user w0) "testdata/sample.tar.xz" = inr (Stream_ TarXz sample_names io_EOF)
  ∧ handed (on_header (failing_on "sample/text/")) 1
      (tar_NewReader (Stream_ TarXz sample_names io_EOF)) (user w0)
    = Some (["sample/"], TarReader ["sample/text/"; "sample/text/lorem.txt"] io_EOF, 1%nat)
  ∧ Next (TarReader ["sample/text/"; "sample/text/lorem.txt"] io_EOF)
    = (inr "sample/text/", TarReader ["sample/text/lorem.txt"] io_EOF)
  ∧ on_header (failing_on "sample/text/") (TarReader ["sample/text/lorem.txt"] io_EOF)
      "sample/text/" 1%nat
    = (TarReader ["sample/text/lorem.txt"] io_EOF, 2%nat, Some errCallback)
  ∧ (1 < 2)%nat
  ∧ WalkTarXz 2 "testdata/sample.tar.xz" (Some (on_header (failing_on "sample/text/"))) w0
    = (Returned (Some errCallback),
       World (typeInfoMap w0) 2%nat [tarEntry "sample/"; tarEntry "sample/text/"]).
Proof.
  assert (os_Open (user w0) "testdata/sample.tar.xz"
          = inr (Stream_ TarXz sample_names io_EOF)) as Hopen by reflexivity.
  assert (handed (on_header (failing_on "sample/text/")) 1
            (tar_NewReader (Stream_ TarXz sample_names io_EOF)) (user w0)
          = Some (["sample/"], TarReader ["sample/text/"; "sample/text/lorem.txt"] io_EOF,
                  1%nat)) as Hpre by reflexivity.
  assert (Next (TarReader ["sample/text/"; "sample/text/lorem.txt"] io_EOF)
          = (inr "sample/text/", TarReader ["sample/text/lorem.txt"] io_EOF))
    as Hn by reflexivity.
  assert (on_header (failing_on "sample/text/") (TarReader ["sample/text/lorem.txt"] io_EOF)
            "sample/text/" 1%nat
          = (TarReader ["sample/text/lorem.txt"] io_EOF, 2%nat, Some errCallback))
    as Hh by reflexivity.
  assert (1 < 2)%nat as Hlt by lia.
  split; [exact Hopen|]. split; [exact Hpre|]. split; [exact Hn|]. split; [exact Hh|].
  split; [exact Hlt|].
  destruct (callback_error_stops_walk os_Open gzip_NewReader xz_NewReader bzip2_NewReader
              zip_readDirectory tar_NewReader "testdata/sample.tar.xz" w0 _ 1%nat 2%nat
              errCallback Hopen) as [Htar _].
  destruct (Htar (on_header (failing_on "sample/text/")) 1%nat 2%nat ["sample/"]
              _ _ _ "sample/text/" Hn Hh Hlt) as (_ & _ & _ & Hxz).
  apply (Hxz (Stream_ TarXz sample_names io_EOF)); [reflexivity | exact Hpre].
Defined.

Lemma open_failure_witness :
  os_Open (user w0) "nonexistent.tar"
  = inl (foreign 2 "open nonexistent.tar: no such file or directory")
  ∧ WalkTar 5 "nonexistent.tar" (Some (on_header count)) w0
    = (Returned (Some (errorString
         "archive: failed to open archive: open nonexistent.tar: no such file or directory")),
       w0)
  ∧ WalkZip "nonexistent.tar" (Some count) w0
    = (Some (errorString
         "archive: failed to open archive: open nonexistent.tar: no such file or directory"),
       w0).
Proof.
  assert (os_Open (user w0) "nonexistent.tar"
          = inl (foreign 2 "open nonexistent.tar: no such file or directory"))
    as Hopen by reflexivity.
  split; [exact Hopen|].
  destruct (open_failure os_Open gzip_NewReader xz_NewReader bzip2_NewReader
              zip_readDirectory tar_NewReader "nonexistent.tar" w0 _ 5%nat
              (Some (on_header count)) (Some count) Hopen) as (Htar & _ & _ & _ & Hzip & _).
  split; [exact Htar | exact Hzip].
Defined.


Lemma decoder_failure_distinct_witness :
  os_Open (user w0) "testdata/sample.tar.xz" = inr (Stream_ TarXz sample_names io_EOF)
  ∧ gzip_NewReader (Stream_ TarXz sample_names io_EOF) = inl (foreign 4 "gzip: invalid header")
  ∧ WalkTarGz 5 "testdata/sample.tar.xz" (Some (on_header count)) w0
    = (Returned (Some (errorString "archive: failed to gz reader: gzip: invalid header")), w0).
Proof.
  assert (os_Open (user w0) "testdata/sample.tar.xz"
          = inr (Stream_ TarXz sample_names io_EOF)) as Hopen by reflexivity.
  assert (gzip_NewReader (Stream_ TarXz sample_names io_EOF)
          = inl (foreign 4 "gzip: invalid header")) as Hgz by reflexivity.
  split; [exact Hopen|]. split; [exact Hgz|].
  exact (proj1 (decoder_failure_distinct os_Open gzip_NewReader xz_NewReader
                  tar_NewReader "testdata/sample.tar.xz" w0 _ (foreign 4 "gzip: invalid header")
                  5%nat (Some (on_header count)) Hopen) Hgz).
Defined.

End OnSample.

(** * Further properties *)

(** ** [makeRegex] on any list of suffixes *)

Lemma app_assoc_string (a b c : string) : (a +:+ b) +:+ c = a +:+ (b +:+ c).
Proof. induction a as [|x a IH]; [done|]. rewrite !app_String. by f_equal. Qed.

Lemma Replace_go_dots s : Replace_go "." "\." 0 None s = escapeDots s.
Proof.
  induction s as [|c s IH]; [done|].
  cbn [Replace_go escapeDots HasPrefix]. destruct (decide ("."%char = c)) as [<-|Hc].
  - rewrite decide_True by done. cbn. by rewrite IH.
  - rewrite decide_False by done. cbn. by rewrite IH.
Qed.

Lemma Replace_dots s : Replace s "." "\." (-1) = escapeDots s.
Proof. apply Replace_go_dots. Qed.

Lemma escapeDots_app a b : escapeDots (a +:+ b) = escapeDots a +:+ escapeDots b.
Proof.
  induction a as [|c a IH]; [done|]. rewrite app_String. simpl.
  case_decide; rewrite IH; by rewrite !app_String.
Qed.

Lemma escapeDots_Join exts :
  escapeDots (Join exts "|") = Join (escapeDots <$> exts) "|".
Proof.
  induction exts as [|e [|e' exts] IH]; [done..|].
  change (Join (e :: e' :: exts) "|") with (e +:+ "|" +:+ Join (e' :: exts) "|").
  rewrite !escapeDots_app, IH. done.
Qed.

Lemma Sprintf_group x : Sprintf "(%s)$" x = "(" +:+ x +:+ ")$".
Proof. reflexivity. Qed.

(** The pattern [makeRegex] builds, spelled out. *)
Lemma makeRegex_spelled exts :
  makeRegex exts = "(" +:+ Join (escapeDots <$> exts) "|" +:+ ")$".
Proof. unfold makeRegex. by rewrite Replace_dots, escapeDots_Join, Sprintf_group. Qed.

(** The parser on the bytes of a suffix, on [|], and on the whole pattern. *)
Lemma parse_literal stack top c s :
  isMeta c = false →
  parse stack top (String c s) = parse stack (pushAtom top (Literal c)) s.
Proof.
  intros Hm. cbn [parse].
  repeat (case_decide as Hc; [rewrite Hc in Hm; by vm_compute in Hm|]; clear Hc).
  by rewrite Hm.
Qed.

Lemma parse_escaped_dot stack top s :
  parse stack top (String "\" (String "." s)) = parse stack (pushAtom top (Literal ".")) s.
Proof. reflexivity. Qed.

Lemma parse_bar stack top s :
  parse stack top (String "|" s) = parse stack (nextAlt top) s.
Proof. reflexivity. Qed.

Lemma parse_plain stack top e rest :
  plainString e = true →
  parse stack top (escapeDots e +:+ rest)
  = parse stack
      (Frame (alts top) (reverse (Literal <$> String.list_ascii_of_string e) ++ atoms top))
      rest.
Proof.
  revert top. induction e as [|c e IH]; intros top He.
  - by destruct top.
  - cbn [plainString] in He. apply andb_true_iff in He as [Hc He].
    cbn [escapeDots String.list_ascii_of_string fmap list_fmap].
    rewrite reverse_cons, <-app_assoc. cbn [app].
    unfold plainByte in Hc. destruct (decide (c = "."%char)) as [->|Hdot].
    + rewrite !app_String, parse_escaped_dot. by rewrite IH.
    + apply andb_true_iff in Hc as [_ Hc].
      apply orb_true_iff in Hc as [Hc%bool_decide_eq_true | Hc%negb_true_iff]; [done|].
      rewrite app_String, parse_literal by done. by rewrite IH.
Qed.

Lemma concatOf_lits e :
  concatOf (reverse (Literal <$> String.list_ascii_of_string e)) = lits e.
Proof.
  induction e as [|c e IH]; [done|].
  cbn [String.list_ascii_of_string fmap list_fmap]. rewrite reverse_cons.
  destruct e as [|c' e']; [done|].
  change (lits (String c (String c' e'))) with (Concat (Literal c) (lits (String c' e'))).
  rewrite <-IH. unfold concatOf.
  destruct (reverse (Literal <$> String.list_ascii_of_string (String c' e')))
    as [|last before] eqn:E.
  - apply (f_equal length) in E. rewrite length_reverse in E. done.
  - cbn [app]. by rewrite fold_left_app.
Qed.

Lemma closeFrame_alts done_ e :
  closeFrame (Frame (reverse (lits <$> done_))
                (reverse (Literal <$> String.list_ascii_of_string e)))
  = altsOf (lits <$> done_ ++ [e]).
Proof.
  unfold closeFrame. cbn [alts atoms]. rewrite concatOf_lits.
  induction done_ as [|d done_ IH]; [done|].
  cbn [fmap list_fmap app]. rewrite reverse_cons, fold_left_app. cbn [fold_left].
  rewrite IH. by destruct done_.
Qed.

(** The alternatives of the group: [done_] are the suffixes already read. *)
Lemma parse_alternatives stack done_ exts rest :
  exts ≠ [] → forallb plainString exts = true →
  parse stack (Frame (reverse (lits <$> done_)) []) (Join (escapeDots <$> exts) "|" +:+ rest)
  = parse stack
      (Frame (reverse (lits <$> done_ ++ removelast exts))
         (reverse (Literal <$> String.list_ascii_of_string (List.last exts ""))))
      rest.
Proof.
  revert done_. induction exts as [|e exts IH]; [done|]. intros done_ _ Hp.
  cbn [forallb] in Hp. apply andb_true_iff in Hp as [He Hp].
  destruct exts as [|e' exts].
  - cbn [fmap list_fmap Join removelast List.last]. rewrite parse_plain by done.
    cbn [alts atoms]. by rewrite !app_nil_r.
  - change (Join (escapeDots <$> e :: e' :: exts) "|")
      with (escapeDots e +:+ "|" +:+ Join (escapeDots <$> e' :: exts) "|").
    rewrite !app_assoc_string, parse_plain by done. cbn [alts atoms].
    rewrite app_String, app_empty_l, parse_bar, app_nil_r. unfold nextAlt. cbn [alts atoms].
    rewrite concatOf_lits.
    specialize (IH (done_ ++ [e])). rewrite fmap_app, reverse_app in IH.
    cbn [fmap list_fmap reverse] in IH. 
    change (reverse [lits e]) with [lits e] in IH. cbn [app] in IH.
    etrans; [by apply IH|].
    change (removelast (e :: e' :: exts)) with (e :: removelast (e' :: exts)).
    change (List.last (e :: e' :: exts) "") with (List.last (e' :: exts) "").
    by rewrite <-app_assoc.
Qed.

Lemma parse_open stack top s :
  parse stack top (String "(" s) = parse (top :: stack) emptyFrame s.
Proof. reflexivity. Qed.

Lemma parse_close top :
  parse [emptyFrame] top ")$" = Some (Concat (Capture (closeFrame top)) EndText).
Proof. reflexivity. Qed.

(** On suffixes of plain bytes the pattern compiles, to the pattern of the
    suffixes. *)
Lemma Compile_makeRegex exts :
  forallb plainString exts = true →
  Compile (makeRegex exts) = Some (suffixPattern exts).
Proof.
  intros Hp. rewrite makeRegex_spelled. destruct (decide (exts = [])) as [->|Hne]; [done|].
  unfold Compile. rewrite app_String, app_empty_l, parse_open.
  etrans; [apply (parse_alternatives [emptyFrame] [] exts ")$" Hne Hp)|].
  rewrite parse_close. cbn [app]. rewrite closeFrame_alts.
  by rewrite <-app_removelast_last.
Qed.

(** Property X1.  The pattern [makeRegex] builds is the suffixes, in their
    order, a backslash put before each of their dots and nothing else
    changed, with a bar between two suffixes, in one group that the end
    of the text follows; on no suffix it is the empty group at the end of
    the text. *)
Theorem makeRegex_text exts :
  makeRegex exts = "(" +:+ Join (escapeDots <$> exts) "|" +:+ ")$"
  ∧ makeRegex [] = "()$"
  ∧ (∀ s, hasDot s = false → makeRegex [s] = "(" +:+ s +:+ ")$").
Proof.
  split; [apply makeRegex_spelled|]. split; [done|].
  intros s Hs. rewrite makeRegex_spelled. cbn [fmap list_fmap Join].
  f_equal. f_equal. induction s as [|c s IH]; [done|].
  cbn [hasDot] in Hs. apply orb_false_iff in Hs as [Hc%bool_decide_eq_false Hs].
  cbn [escapeDots]. rewrite decide_False by done. by rewrite IH.
Qed.

Lemma FindStringSubmatch_no_suffix f :
  FindStringSubmatch (suffixPattern []) f ≠ [].
Proof.
  apply FindStringSubmatch_nonempty. exists f, "". by rewrite app_empty_r.
Qed.

(** Property X2.  Whatever the suffixes, as long as they are made of plain
    bytes: the pattern [makeRegex] builds compiles ([regexp.MustCompile]
    does not panic), and [FindStringSubmatch] finds a match in a string
    exactly when the string ends in one of the suffixes; with no suffix
    at all the pattern matches every string. *)
Theorem makeRegex_matches_suffixes exts :
  forallb plainString exts = true →
  ∃ re, Compile (makeRegex exts) = Some re
        ∧ ∀ f, length (FindStringSubmatch re f) ≠ 0%nat
               ↔ exts = [] ∨ ∃ e, e ∈ exts ∧ HasSuffix f e = true.
Proof.
  intros Hp. exists (suffixPattern exts). split; [by apply Compile_makeRegex|].
  intros f. destruct (decide (exts = [])) as [->|Hne].
  - split; [by left|]. intros _. rewrite length_zero_iff_nil.
    apply FindStringSubmatch_no_suffix.
  - rewrite <-(bool_decide_eq_true (length (FindStringSubmatch (suffixPattern exts) f) ≠ 0%nat)).
    rewrite FindStringSubmatch_suffixPattern by done.
    rewrite existsb_exists. setoid_rewrite <-list_elem_of_In. split; [by right|].
    by intros [?|?].
Qed.

Lemma makeRegex_matches_suffixes_witness :
  forallb plainString [".tar.gz"; ".tgz"] = true
  ∧ ∃ re, Compile (makeRegex [".tar.gz"; ".tgz"]) = Some re
          ∧ (length (FindStringSubmatch re "backup.tgz") ≠ 0%nat)
          ∧ ¬ (length (FindStringSubmatch re "backuptgz") ≠ 0%nat).
Proof.
  assert (forallb plainString [".tar.gz"; ".tgz"] = true) as Hp by reflexivity.
  split; [exact Hp|].
  destruct (makeRegex_matches_suffixes [".tar.gz"; ".tgz"] Hp) as (re & Hre & Hm).
  exists re. split; [exact Hre|]. split.
  - apply Hm. right. exists ".tgz". split; [by apply (bool_decide_unpack _) | by vm_compute].
  - intros [Hnil | (e & He & Hs)]%Hm; [done|].
    rewrite !elem_of_cons, elem_of_nil in He.
    destruct He as [-> | [-> | []]]; by vm_compute in Hs.
Defined.

Lemma plain_entry_well_formed p : plain_entry p → well_formed p.
Proof.
  intros (Hre & Hne & Hp). split; [done|]. split; [done|]. by apply Compile_makeRegex.
Qed.

Lemma elem_of_suffixes_of pairs T s :
  (T, s) ∈ suffixes_of pairs ↔ ∃ info, (T, info) ∈ pairs ∧ s ∈ extensions info.
Proof.
  unfold suffixes_of. rewrite list_elem_of_bind. split.
  - intros ([T' info] & Hs & Hin). simpl in Hs.
    apply list_elem_of_fmap in Hs as (s' & [= -> ->] & Hs'). eauto.
  - intros (info & Hin & Hs). exists (T, info). split; [|done].
    simpl. apply list_elem_of_fmap. eauto.
Qed.

(** On any table of suffixes made of plain bytes, whatever the types. *)
Lemma DetermineType_range_conflict_free f order1 order2 :
  order1 ≡ₚ order2 → Forall plain_entry order1 →
  conflict_free (suffixes_of order1) = true →
  (DetermineType_range f order1).2 = (DetermineType_range f order2).2.
Proof.
  intros Hperm Hplain Hcf.
  assert (Forall well_formed order1) as Hwf1.
  { eapply Forall_impl; [done | apply plain_entry_well_formed]. }
  assert (Forall well_formed order2) as Hwf2 by (by rewrite <-Hperm).
  destruct (first_match_or_none f order1)
    as [(b1 & T1 & i1 & a1 & E1 & Hb1 & Hm1) | Hnone1];
  destruct (first_match_or_none f order2)
    as [(b2 & T2 & i2 & a2 & E2 & Hb2 & Hm2) | Hnone2].
  - rewrite (DetermineType_range_first _ _ _ _ _ _ Hwf1 E1 Hb1 Hm1).
    rewrite (DetermineType_range_first _ _ _ _ _ _ Hwf2 E2 Hb2 Hm2). simpl.
    apply matches_spec in Hm1 as (s1 & Hs1 & Hf1).
    apply matches_spec in Hm2 as (s2 & Hs2 & Hf2).
    assert ((T1, s1) ∈ suffixes_of order1) as H1.
    { apply elem_of_suffixes_of. exists i1. split; [|done]. rewrite E1.
      apply elem_of_app. right. left. }
    assert ((T2, s2) ∈ suffixes_of order1) as H2.
    { apply elem_of_suffixes_of. exists i2. split; [|done]. rewrite Hperm, E2.
      apply elem_of_app. right. left. }
    by rewrite (conflict_free_spec _ _ _ _ _ _ Hcf H1 H2 Hf1 Hf2).
  - rewrite Forall_forall in Hnone2.
    assert ((T1, i1) ∈ order2) as Hin.
    { rewrite <-Hperm, E1. apply elem_of_app. right. left. }
    specialize (Hnone2 _ Hin). simpl in Hnone2. congruence.
  - rewrite Forall_forall in Hnone1.
    assert ((T2, i2) ∈ order1) as Hin.
    { rewrite Hperm, E2. apply elem_of_app. right. left. }
    specialize (Hnone1 _ Hin). simpl in Hnone1. congruence.
  - by rewrite !DetermineType_range_none.
Qed.

(** ** [DetermineType] on any table, and on the table of [init] *)

(** ** Shapes of names *)

Lemma length_app_string (p s : string) :
  String.length (p +:+ s) = (String.length p + String.length s)%nat.
Proof. induction p as [|c p IH]; [done|]. norm_app. simpl. by rewrite IH. Qed.

Lemma hasDot_app (p s : string) : hasDot (p +:+ s) = hasDot p || hasDot s.
Proof.
  induction p as [|c p IH]; [done|]. norm_app. simpl. by rewrite IH, orb_assoc.
Qed.

Lemma isASCII_app (p s : string) : isASCII (p +:+ s) = isASCII p && isASCII s.
Proof.
  induction p as [|c p IH]; [done|]. norm_app. simpl. by rewrite IH, andb_assoc.
Qed.

Lemma lowerByte_dot c : bool_decide (lowerByte c = "."%char) = bool_decide (c = "."%char).
Proof. by destruct c as [[] [] [] [] [] [] [] []]. Qed.

Lemma hasDot_lowerASCII s : hasDot (lowerASCII s) = hasDot s.
Proof. induction s as [|c s IH]; [done|]. simpl. by rewrite lowerByte_dot, IH. Qed.

Lemma length_lowerASCII s : String.length (lowerASCII s) = String.length s.
Proof. induction s as [|c s IH]; [done|]. simpl. by rewrite IH. Qed.

(** Every registered suffix holds a dot and counts four bytes at least. *)
Lemma suffix_table_shape T s :
  (T, s) ∈ suffix_table → hasDot s = true ∧ (4 ≤ String.length s)%nat.
Proof.
  revert T s.
  assert (Forall (λ p, hasDot p.2 = true ∧ (4 ≤ String.length p.2)%nat) suffix_table) as H.
  { by apply (bool_decide_unpack _). }
  intros T s Hs. rewrite Forall_forall in H. apply (H _ Hs).
Qed.

Lemma suffix_table_lower T s : (T, s) ∈ suffix_table → isASCII s = true ∧ hasUpper s = false.
Proof.
  revert T s.
  assert (Forall (λ p, isASCII p.2 = true ∧ hasUpper p.2 = false) suffix_table) as H.
  { by apply (bool_decide_unpack _). }
  intros T s Hs. rewrite Forall_forall in H. apply (H _ Hs).
Qed.

Lemma suffix_table_declared T s : (T, s) ∈ suffix_table → T ∈ declared_order.
Proof.
  revert T s.
  assert (Forall (λ p, p.1 ∈ declared_order) suffix_table) as H.
  { by apply (bool_decide_unpack _). }
  intros T s Hs. rewrite Forall_forall in H. apply (H _ Hs).
Qed.

(** What the loop returns on an order of the pairs of [init]. *)
Lemma DetermineType_range_cases f order :
  order ≡ₚ init_table →
  (∃ T s, (T, s) ∈ suffix_table ∧ HasSuffix f s = true
          ∧ (DetermineType_range f order).2 = Some (T, None))
  ∨ ((∀ T s, (T, s) ∈ suffix_table → HasSuffix f s = false)
     ∧ (DetermineType_range f order).2 = Some (0, Some ErrUnknownType)).
Proof.
  intros Hperm.
  destruct (decide (Exists (λ p, HasSuffix f p.2 = true) suffix_table))
    as [([T s] & Hs & Hf)%Exists_exists | Hno].
  - left. exists T, s. split; [done|]. split; [done|].
    by apply DetermineType_range_registered with s.
  - right.
    assert (∀ T s, (T, s) ∈ suffix_table → HasSuffix f s = false) as Hnone.
    { intros T s Hs. apply not_true_iff_false. intros Hf. apply Hno.
      apply Exists_exists. by exists (T, s). }
    split; [done|]. by rewrite DetermineType_range_unknown.
Qed.

Lemma DetermineType_range_matched f order T :
  order ≡ₚ init_table → (DetermineType_range f order).2 = Some (T, None) →
  ∃ s, (T, s) ∈ suffix_table ∧ HasSuffix f s = true.
Proof.
  intros Hperm Hres.
  destruct (DetermineType_range_cases f order Hperm)
    as [(T' & s & Hs & Hf & Hr) | [_ Hr]]; rewrite Hr in Hres; simplify_eq. eauto.
Qed.

Lemma String_declared T : String_ T ≠ "" ↔ T ∈ declared_order.
Proof.
  unfold String_, declared_order. rewrite !elem_of_cons, elem_of_nil.
  repeat case_decide; subst; (split; [intros ?; try done; tauto | intros ?; try done; tauto]).
Qed.

Lemma String_injective T1 T2 :
  T1 ∈ declared_order → String_ T1 = String_ T2 → T1 = T2.
Proof.
  intros H1%String_declared Heq. revert H1 Heq. unfold String_.
  repeat case_decide; by subst.
Qed.

Section MoreFacts.

Context (MapToLower : string → string).
Context {UserState Header ZipFile : Type}.

Local Abbreviation world := (@world UserState Header ZipFile).
Local Abbreviation ToLower := (ToLower MapToLower).
Local Abbreviation DetermineType := (@DetermineType MapToLower UserState Header ZipFile).

Implicit Types (w : world) (ρ : gmap Type_ typeInfo → list (Type_ * typeInfo)).

Lemma plain_table ρ w :
  map_Forall (λ T info, plain_entry (T, info)) (typeInfoMap w) →
  range_order ρ (typeInfoMap w) →
  Forall plain_entry (ρ (typeInfoMap w)).
Proof.
  intros Hp Hρ. rewrite Hρ. apply Forall_forall. intros [T info] Hin.
  apply elem_of_map_to_list in Hin. by apply Hp.
Qed.

(** Property X3.  Whatever the table holds, as long as its suffixes are made of
    plain bytes: [DetermineType] returns (no pattern makes
    [regexp.MustCompile] panic); it returns the type of the first pair, in
    the order of the [range] loop, one of whose suffixes ends the lowered
    filename; a type it returns with a [nil] error has such a suffix in
    the table; and it returns the zero type with [ErrUnknownType] exactly
    when no suffix of the table ends the lowered filename. *)
Theorem DetermineType_first_match ρ w f :
  map_Forall (λ T info, plain_entry (T, info)) (typeInfoMap w) →
  range_order ρ (typeInfoMap w) →
  (∃ r, DetermineType ρ f w = (Some r, w))
  ∧ (∀ before T info after,
       ρ (typeInfoMap w) = before ++ (T, info) :: after →
       Forall (λ p, matches (ToLower f) p.2 = false) before →
       matches (ToLower f) info = true →
       DetermineType ρ f w = (Some (T, None), w))
  ∧ (∀ T, DetermineType ρ f w = (Some (T, None), w) →
          ∃ info s, typeInfoMap w !! T = Some info ∧ s ∈ extensions info
                    ∧ HasSuffix (ToLower f) s = true)
  ∧ (DetermineType ρ f w = (Some (0, Some ErrUnknownType), w)
     ↔ ∀ T info s, typeInfoMap w !! T = Some info → s ∈ extensions info →
                   HasSuffix (ToLower f) s = false).
Proof.
  intros Hp Hρ. pose proof (plain_table ρ w Hp Hρ) as Hplain.
  assert (Forall well_formed (ρ (typeInfoMap w))) as Hwf.
  { eapply Forall_impl; [done | apply plain_entry_well_formed]. }
  assert (∀ T info, (T, info) ∈ ρ (typeInfoMap w) ↔ typeInfoMap w !! T = Some info) as Hin.
  { intros T info. by rewrite Hρ, elem_of_map_to_list. }
  rewrite !DetermineType_unfold.
  destruct (first_match_or_none (ToLower f) (ρ (typeInfoMap w)))
    as [(b & T0 & i0 & a & E & Hb & Hm) | Hnone].
  - pose proof (DetermineType_range_first _ _ _ _ _ _ Hwf E Hb Hm) as Hr.
    split; [rewrite Hr; by eexists|].
    split; [|split].
    + intros before T info after E' Hb' Hm'.
      by rewrite (DetermineType_range_first _ _ _ _ _ _ Hwf E' Hb' Hm').
    + rewrite Hr. simpl. intros T [= <-].
      apply matches_spec in Hm as (s & Hs & Hf). exists i0, s.
      split; [|done]. apply Hin. rewrite E. apply elem_of_app. right. left.
    + rewrite Hr. simpl. split; [done|]. intros Hno.
      apply matches_spec in Hm as (s & Hs & Hf).
      rewrite (Hno T0 i0 s) in Hf; [done | | done].
      apply Hin. rewrite E. apply elem_of_app. right. left.
  - pose proof (DetermineType_range_none _ _ Hwf Hnone) as Hr.
    split; [rewrite Hr; by eexists|].
    split; [|split].
    + intros before T info after E' Hb' Hm'.
      rewrite Forall_forall in Hnone.
      assert ((T, info) ∈ ρ (typeInfoMap w)) as Hi.
      { rewrite E'. apply elem_of_app. right. left. }
      specialize (Hnone _ Hi). simpl in Hnone. congruence.
    + rewrite Hr. simpl. by intros T [=].
    + rewrite Hr. simpl. split; [|done]. intros _ T info s Hl Hs.
      apply not_true_iff_false. intros Hf.
      rewrite Forall_forall in Hnone. apply Hin in Hl.
      specialize (Hnone _ Hl). simpl in Hnone.
      assert (matches (ToLower f) info = true) as Hm; [|congruence].
      apply matches_spec. eauto.
Qed.

(** Property X4.  On a table of plain suffixes none of which is the tail of a
    suffix of another type, the value [DetermineType] returns is the same
    for every order the [range] loop may take. *)
Theorem DetermineType_conflict_free_table ρ1 ρ2 w f :
  map_Forall (λ T info, plain_entry (T, info)) (typeInfoMap w) →
  conflict_free (suffixes_of (map_to_list (typeInfoMap w))) = true →
  range_order ρ1 (typeInfoMap w) → range_order ρ2 (typeInfoMap w) →
  DetermineType ρ1 f w = DetermineType ρ2 f w.
Proof.
  intros Hp Hcf H1 H2. rewrite !DetermineType_unfold. f_equal.
  transitivity (DetermineType_range (ToLower f) (map_to_list (typeInfoMap w))).2.
  - symmetry. apply DetermineType_range_conflict_free; [by symmetry | | done].
    apply (plain_table map_to_list w Hp). unfold range_order. reflexivity.
  - apply DetermineType_range_conflict_free; [by symmetry | | done].
    apply (plain_table map_to_list w Hp). unfold range_order. reflexivity.
Qed.

(** Property X6.  Once [init] has run, [DetermineType] returns one of the five
    declared types with a [nil] error, or the zero type with
    [ErrUnknownType], and nothing else; [String] gives a name to the
    former and the empty string for the latter; and each of the five
    types is returned for some filename. *)
Theorem DetermineType_result ρ w :
  range_order ρ (typeInfoMap w) → initialized w →
  (∀ f, ∃ T err, DetermineType ρ f w = (Some (T, err), w)
        ∧ ((err = None ∧ T ∈ declared_order ∧ String_ T ≠ "")
           ∨ (err = Some ErrUnknownType ∧ T = 0 ∧ String_ T = "")))
  ∧ (∀ T, T ∈ declared_order → ∃ f, DetermineType ρ f w = (Some (T, None), w)).
Proof.
  intros Hρ Hi. pose proof (initialized_table w ρ Hi Hρ) as Hperm. split.
  - intros f. rewrite DetermineType_unfold.
    destruct (DetermineType_range_cases (ToLower f) _ Hperm)
      as [(T & s & Hs & Hf & Hr) | [_ Hr]]; rewrite Hr.
    + exists T, None. split; [done|]. left. split; [done|].
      pose proof (suffix_table_declared T s Hs) as HT.
      split; [done | by apply String_declared].
    + exists 0, (Some ErrUnknownType). split; [done|]. by right.
  - intros T HT. unfold declared_order in HT.
    rewrite !elem_of_cons, elem_of_nil in HT.
    assert (∀ s, (T, s) ∈ suffix_table → isASCII s = true →
                 HasSuffix (lowerASCII s) s = true →
                 DetermineType ρ s w = (Some (T, None), w)) as Hs.
    { intros s Hs Ha Hf. rewrite DetermineType_unfold.
      rewrite (DetermineType_range_registered _ _ T s); [done..|].
      by rewrite ToLower_ASCII. }
    destruct HT as [-> | [-> | [-> | [-> | [-> | []]]]]].
    + exists ".tar". apply Hs; [by apply (bool_decide_unpack _) | done..].
    + exists ".tbz". apply Hs; [by apply (bool_decide_unpack _) | done..].
    + exists ".tgz". apply Hs; [by apply (bool_decide_unpack _) | done..].
    + exists ".txz". apply Hs; [by apply (bool_decide_unpack _) | done..].
    + exists ".zip". apply Hs; [by apply (bool_decide_unpack _) | done..].
Qed.

(** Property X7.  [String] names the five declared types, each with a name of its
    own, and gives the empty string for every other value, the zero type
    first. *)
Theorem String_names_declared_types :
  String_ <$> declared_order = ["Tar"; "TarBz2"; "TarGz"; "TarXz"; "Zip"]
  ∧ (∀ T, String_ T ≠ "" ↔ T ∈ declared_order)
  ∧ (∀ T1 T2, T1 ∈ declared_order → String_ T1 = String_ T2 → T1 = T2)
  ∧ String_ 0 = "".
Proof.
  split; [done|]. split; [apply String_declared|].
  split; [apply String_injective | done].
Qed.

(** Property X8.  A name that holds no dot, or fewer than four bytes, is of no
    type: [DetermineType] returns the zero type and [ErrUnknownType] as
    soon as the lowered filename has that shape, and for a filename of
    ASCII bytes as soon as the filename itself has. *)
Theorem DetermineType_needs_extension ρ w f :
  range_order ρ (typeInfoMap w) → initialized w →
  (hasDot (ToLower f) = false ∨ (String.length (ToLower f) < 4)%nat →
   DetermineType ρ f w = (Some (0, Some ErrUnknownType), w))
  ∧ (isASCII f = true → hasDot f = false ∨ (String.length f < 4)%nat →
     DetermineType ρ f w = (Some (0, Some ErrUnknownType), w)).
Proof.
  intros Hρ Hi. pose proof (initialized_table w ρ Hi Hρ) as Hperm.
  assert (hasDot (ToLower f) = false ∨ (String.length (ToLower f) < 4)%nat →
          DetermineType ρ f w = (Some (0, Some ErrUnknownType), w)) as Hshape.
  { intros Hsh. rewrite DetermineType_unfold.
    rewrite DetermineType_range_unknown; [done..|].
    intros T s Hs. apply not_true_iff_false. intros [p Hf]%HasSuffix_spec.
    destruct (suffix_table_shape T s Hs) as [Hd Hl].
    destruct Hsh as [Hnd | Hlt].
    - rewrite Hf, hasDot_app, Hd, orb_true_r in Hnd. done.
    - rewrite Hf, length_app_string in Hlt. lia. }
  split; [done|]. intros Ha Hsh. apply Hshape.
  by rewrite (ToLower_ASCII _ _ Ha), hasDot_lowerASCII, length_lowerASCII.
Qed.

(** Property X9.  The type is that of the tail of the name: for names of ASCII
    bytes, what comes before a name of a known type (a directory, a
    drive, more extensions) does not change its type. *)
Theorem DetermineType_prefix ρ ρ' w p f T :
  range_order ρ (typeInfoMap w) → range_order ρ' (typeInfoMap w) → initialized w →
  isASCII p = true → isASCII f = true →
  DetermineType ρ f w = (Some (T, None), w) →
  DetermineType ρ' (p +:+ f) w = (Some (T, None), w).
Proof.
  intros Hρ Hρ' Hi Hp Hf. rewrite !DetermineType_unfold. intros [= Hres].
  apply DetermineType_range_matched in Hres as (s & Hs & Hsuf);
    [|by apply initialized_table].
  rewrite (DetermineType_range_registered _ _ T s); [done | by apply initialized_table | done |].
  rewrite (ToLower_ASCII _ _ Hf) in Hsuf.
  rewrite ToLower_ASCII by (by rewrite isASCII_app, Hp, Hf).
  rewrite lowerASCII_app. apply HasSuffix_spec in Hsuf as [q ->].
  apply HasSuffix_spec. exists (lowerASCII p +:+ q). by rewrite app_assoc_string.
Qed.

Lemma DetermineType_some_order w f T info :
  map_Forall (λ T info, plain_entry (T, info)) (typeInfoMap w) →
  typeInfoMap w !! T = Some info → matches (ToLower f) info = true →
  ∃ ρ, range_order ρ (typeInfoMap w) ∧ DetermineType ρ f w = (Some (T, None), w).
Proof.
  intros Hp Hl Hm.
  assert ((T, info) ∈ map_to_list (typeInfoMap w)) as Hin by (by apply elem_of_map_to_list).
  apply elem_of_Permutation in Hin as [rest Hperm].
  exists (λ _, (T, info) :: rest). split; [unfold range_order; by symmetry|].
  rewrite DetermineType_unfold, DetermineType_range_cons, Hm; [done|].
  apply plain_entry_well_formed. by apply Hp.
Qed.

(** Property X5.  A name that ends in suffixes of two types of the table gets
    either type, as the [range] loop goes: for each of the two there is
    an order of the loop under which [DetermineType] returns it. *)
Theorem DetermineType_order_matters w f T1 info1 T2 info2 :
  map_Forall (λ T info, plain_entry (T, info)) (typeInfoMap w) →
  typeInfoMap w !! T1 = Some info1 → typeInfoMap w !! T2 = Some info2 →
  matches (ToLower f) info1 = true → matches (ToLower f) info2 = true →
  ∃ ρ1 ρ2, range_order ρ1 (typeInfoMap w) ∧ range_order ρ2 (typeInfoMap w)
           ∧ DetermineType ρ1 f w = (Some (T1, None), w)
           ∧ DetermineType ρ2 f w = (Some (T2, None), w).
Proof.
  intros Hp H1 H2 Hm1 Hm2.
  destruct (DetermineType_some_order w f T1 info1 Hp H1 Hm1) as (ρ1 & Hρ1 & Hr1).
  destruct (DetermineType_some_order w f T2 info2 Hp H2 Hm2) as (ρ2 & Hρ2 & Hr2).
  by exists ρ1, ρ2.
Qed.

End MoreFacts.
(** ** The walkers, whatever the callback *)

(** ** Errors built by the package *)

Lemma length_Error_fmt_Errorf fmt pre cause :
  (∀ x, Sprintf fmt x = pre +:+ x) →
  String.length (Error (fmt_Errorf fmt cause))
  = (String.length pre + String.length (Error cause))%nat.
Proof. intros H. unfold fmt_Errorf. simpl. by rewrite H, length_app_string. Qed.

(** Either the callback returns [nil] on all the entries, or there is a
    first entry on which it returns an error. *)
Lemma thread_or_stop {E U} (cb : E → U → U * option error) es u :
  (∃ u', thread cb es u = Some u')
  ∨ (∃ pre x post u1 u2 e, es = pre ++ x :: post ∧ thread cb pre u = Some u1
                           ∧ cb x u1 = (u2, Some e)).
Proof.
  revert u. induction es as [|x es IH]; intros u; simpl; [left; eauto|].
  destruct (cb x u) as [u' [e|]] eqn:Hx.
  - right. exists [], x, es, u, u', e. by simpl.
  - destruct (IH u') as [[u'' Hu] | (pre & y & post & u1 & u2 & e & -> & Hpre & Hy)].
    + left. eauto.
    + right. exists (x :: pre), y, post, u1, u2, e. simpl. by rewrite Hx.
Qed.

Section MoreWalkers.

Context {UserState Header ZipFile Stream : Type}.
Context (os_Open : UserState → string → error + Stream).
Context (gzip_NewReader xz_NewReader : Stream → error + Stream).
Context (bzip2_NewReader : Stream → Stream).
Context (zip_readDirectory : Stream → error + list ZipFile).
Context (tar_NewReader : Stream → @tar_Reader Header).

Local Abbreviation world := (@world UserState Header ZipFile).
Local Abbreviation TarCallback := (@TarCallback UserState Header).
Local Abbreviation ZipCallback := (@ZipCallback UserState ZipFile).
Local Abbreviation WalkTar := (WalkTar os_Open tar_NewReader).
Local Abbreviation WalkTarBzip2 := (WalkTarBzip2 os_Open bzip2_NewReader tar_NewReader).
Local Abbreviation WalkTarGz := (WalkTarGz os_Open gzip_NewReader tar_NewReader).
Local Abbreviation WalkTarXz := (WalkTarXz os_Open xz_NewReader tar_NewReader).
Local Abbreviation WalkZip := (WalkZip os_Open zip_readDirectory).
Local Abbreviation take := firstn.

Implicit Types (w : world) (reader : @tar_Reader Header).

Local Ltac walk :=
  autounfold with walkers; unfold mbind, M_bind;
  rewrite ?open_unfold, ?zip_OpenReader_unfold.

Lemma WalkZip_range_complete (cb : ZipCallback) files w u' :
  thread cb files (user w) = Some u' →
  WalkZip_range files (Some cb) w = (None, visited zipEntry w files u').
Proof.
  revert w. induction files as [|z rest IH]; intros w Hth; simpl in *.
  - simplify_eq. by rewrite visited_nil.
  - unfold mbind, M_bind, invoke.
    destruct (cb z (user w)) as [u1 [err|]] eqn:Hz; [done|].
    rewrite (IH (World (typeInfoMap w) u1 (calls w ++ [zipEntry z]))) by done.
    unfold visited. simpl. by rewrite <-app_assoc.
Qed.

Lemma WalkZip_range_outcome (cb : ZipCallback) files w :
  (∃ u', thread cb files (user w) = Some u'
         ∧ WalkZip_range files (Some cb) w = (None, visited zipEntry w files u'))
  ∨ (∃ pre z post u1 u2 e,
       files = pre ++ z :: post ∧ thread cb pre (user w) = Some u1
       ∧ cb z u1 = (u2, Some e)
       ∧ WalkZip_range files (Some cb) w = (Some e, visited zipEntry w (pre ++ [z]) u2)).
Proof.
  destruct (thread_or_stop cb files (user w))
    as [[u' Hu] | (pre & z & post & u1 & u2 & e & Heq & Hpre & Hz)].
  - left. exists u'. split; [done|]. by apply WalkZip_range_complete.
  - right. exists pre, z, post, u1, u2, e. rewrite Heq at 2.
    repeat split; try done. by eapply WalkZip_range_stops.
Qed.

Lemma WalkZip_WalkZip_range path w file files cb :
  os_Open (user w) path = inr file → zip_readDirectory file = inr files →
  WalkZip path cb w = WalkZip_range files cb w.
Proof. intros Hopen Hd. walk. by rewrite Hopen, Hd. Qed.

Lemma handed_end_leaves_reader (cb : TarCallback) k reader u es r1 u1 :
  leaves_reader cb → handed cb k reader u = Some (es, r1, u1) → pending r1 = [] →
  es = pending reader ∧ final r1 = final reader.
Proof.
  intros Hl Hk Hnil. destruct (handed_leaves_reader _ _ _ _ _ _ _ Hl Hk) as (_ & -> & ->).
  simpl in *. split; [|done].
  rewrite <-(take_drop k (pending reader)) at 2. by rewrite Hnil, app_nil_r.
Qed.

(** Property X10.  A complete walk.  On an archive that opens (and whose
    decoder is built), when the callback returns [nil] on every entry the
    loop hands to it, until the reader has no header left, each of the
    four tar walkers has run it on these entries, in that order, each
    call starting from what the one before left, and returns [nil] if
    the reader, as the callback left it, ends on [io.EOF], and the error
    of that reader, unchanged, otherwise.  When the callback leaves the
    reader where the loop put it, these entries are all the entries of
    the archive, once each and in the order of the archive, and the
    reader ends as the archive does.  [WalkZip], whose callback has no
    hold on the loop, runs it on all the entries and returns [nil]. *)
Theorem complete_walk path w file u' :
  os_Open (user w) path = inr file →
  (∀ (cb : TarCallback) k turns es r1,
     pending r1 = [] → (k < turns)%nat →
     (handed cb k (tar_NewReader file) (user w) = Some (es, r1, u') →
      WalkTar turns path (Some cb) w = (Returned (at_end r1), visited tarEntry w es u'))
     ∧ (handed cb k (tar_NewReader (bzip2_NewReader file)) (user w) = Some (es, r1, u') →
        WalkTarBzip2 turns path (Some cb) w
        = (Returned (at_end r1), visited tarEntry w es u'))
     ∧ (∀ r, gzip_NewReader file = inr r →
             handed cb k (tar_NewReader r) (user w) = Some (es, r1, u') →
             WalkTarGz turns path (Some cb) w
             = (Returned (at_end r1), visited tarEntry w es u'))
     ∧ (∀ r, xz_NewReader file = inr r →
             handed cb k (tar_NewReader r) (user w) = Some (es, r1, u') →
             WalkTarXz turns path (Some cb) w
             = (Returned (at_end r1), visited tarEntry w es u')))
  ∧ (∀ (cb : TarCallback) k reader es r1,
       leaves_reader cb → handed cb k reader (user w) = Some (es, r1, u') →
       pending r1 = [] →
       es = pending reader ∧ k = length (pending reader) ∧ at_end r1 = at_end reader)
  ∧ (∀ (cb : ZipCallback) files,
       zip_readDirectory file = inr files → thread cb files (user w) = Some u' →
       WalkZip path (Some cb) w = (None, visited zipEntry w files u')).
Proof.
  intros Hopen. split; [|split].
  - intros cb k turns es r1 Hnil Hlt. split; [|split; [|split]].
    + intros Hk. rewrite (WalkTar_readTar _ _ _ _ _ _ _ Hopen).
      by rewrite (readTar_complete _ _ _ _ _ _ _ _ Hk Hnil Hlt).
    + intros Hk. rewrite (WalkTarBzip2_readTar _ _ _ _ _ _ _ _ Hopen).
      by rewrite (readTar_complete _ _ _ _ _ _ _ _ Hk Hnil Hlt).
    + intros r Hr Hk. rewrite (WalkTarGz_readTar _ _ _ _ _ _ _ _ _ Hopen Hr).
      by rewrite (readTar_complete _ _ _ _ _ _ _ _ Hk Hnil Hlt).
    + intros r Hr Hk. rewrite (WalkTarXz_readTar _ _ _ _ _ _ _ _ _ Hopen Hr).
      by rewrite (readTar_complete _ _ _ _ _ _ _ _ Hk Hnil Hlt).
  - intros cb k reader es r1 Hl Hk Hnil.
    destruct (handed_end_leaves_reader _ _ _ _ _ _ _ Hl Hk Hnil) as [Hes Hfin].
    split; [done|]. split; [|unfold at_end; by rewrite Hfin].
    destruct (handed_leaves_reader _ _ _ _ _ _ _ Hl Hk) as (Hle & _ & Hr1).
    rewrite Hr1 in Hnil. simpl in Hnil. apply (f_equal length) in Hnil.
    rewrite length_drop in Hnil. simpl in Hnil. lia.
  - intros cb files Hd Hth. rewrite (WalkZip_WalkZip_range _ _ _ _ _ Hopen Hd).
    by apply WalkZip_range_complete.
Qed.

Lemma readTar_order (cb : TarCallback) turns reader w :
  advances_reader cb →
  ∃ es u, (readTar turns reader (Some cb) w).2 = visited tarEntry w es u
          ∧ es `sublist_of` pending reader
          ∧ (leaves_reader cb →
             es `prefix_of` pending reader
             ∧ ((readTar turns reader (Some cb) w).1.1 = Returned None →
                es = pending reader)).
Proof.
  intros Ha.
  destruct (readTar_outcome cb turns reader w)
    as [(es & r1 & u1 & Hk & ->)
       | [(k & es & r1 & u1 & Hlt & Hk & Hnil & ->)
         | (k & pre & r1 & u1 & h & r1' & r2 & u2 & e & Hlt & Hk & Hn & Hcb & ->)]];
    cbn [fst snd].
  - exists es, u1. split; [done|].
    destruct (handed_advances _ _ _ _ _ _ _ Ha Hk) as (n & _ & _ & Hsub).
    split; [etrans; [exact Hsub | apply sublist_take]|].
    intros Hl. destruct (handed_leaves_reader _ _ _ _ _ _ _ Hl Hk) as (_ & -> & _).
    split; [|done]. exists (drop turns (pending reader)). by rewrite take_drop.
  - exists es, u1. split; [done|].
    destruct (handed_advances _ _ _ _ _ _ _ Ha Hk) as (n & _ & _ & Hsub).
    split; [etrans; [exact Hsub | apply sublist_take]|].
    intros Hl. destruct (handed_end_leaves_reader _ _ _ _ _ _ _ Hl Hk Hnil) as [-> _].
    done.
  - exists (pre ++ [h]), u2. split; [done|].
    destruct (handed_advances _ _ _ _ _ _ _ Ha Hk) as (n & Hpn & _ & Hsub).
    pose proof (Next_inr _ _ _ Hn) as [Hp1 _]. rewrite Hpn in Hp1. split.
    + rewrite <-(take_drop n (pending reader)), Hp1.
      apply sublist_app; [done|]. apply sublist_skip, sublist_nil_l.
    + intros Hl. split; [|done].
      destruct (handed_leaves_reader _ _ _ _ _ _ _ Hl Hk) as (_ & -> & ->).
      pose proof (Next_inr _ _ _ Hn) as [Hp2 _]. simpl in Hp2.
      exists (pending r1'). rewrite <-(take_drop k (pending reader)) at 1.
      by rewrite Hp2, <-app_assoc.
Qed.

Lemma WalkZip_range_prefix (cb : ZipCallback) files w :
  ∃ es u, (WalkZip_range files (Some cb) w).2 = visited zipEntry w es u
          ∧ es `prefix_of` files
          ∧ ((WalkZip_range files (Some cb) w).1 = None → es = files).
Proof.
  destruct (WalkZip_range_outcome cb files w)
    as [(u' & Hth & ->) | (pre & h & post & u1 & u2 & e & Heq & Hpre & Hh & ->)].
  - by exists files, u'.
  - exists (pre ++ [h]), u2. split; [done|]. split; [|done].
    rewrite Heq. exists post. by rewrite <-app_assoc.
Qed.

(** Property X11.  The order of a walk.  A tar callback that does no more
    to the reader than call [Next] on it (that leaves it alone, in
    particular) is handed entries of the archive in the order of the
    archive, each one once at most, after any number of turns of the
    loop; if it leaves the reader where the loop put it, no entry is
    skipped: the entries it ran on are the first ones of the archive, and
    all of them when the walker returns [nil].  [WalkZip] hands the first
    entries of the archive to its callback, whatever the callback does,
    and all of them when it returns [nil]. *)
Theorem walk_in_archive_order path w file :
  os_Open (user w) path = inr file →
  (∀ (cb : TarCallback) turns, advances_reader cb →
     (∃ es u, (WalkTar turns path (Some cb) w).2 = visited tarEntry w es u
              ∧ es `sublist_of` pending (tar_NewReader file)
              ∧ (leaves_reader cb →
                 es `prefix_of` pending (tar_NewReader file)
                 ∧ ((WalkTar turns path (Some cb) w).1 = Returned None →
                    es = pending (tar_NewReader file))))
     ∧ (∃ es u, (WalkTarBzip2 turns path (Some cb) w).2 = visited tarEntry w es u
                ∧ es `sublist_of` pending (tar_NewReader (bzip2_NewReader file))
                ∧ (leaves_reader cb →
                   es `prefix_of` pending (tar_NewReader (bzip2_NewReader file))
                   ∧ ((WalkTarBzip2 turns path (Some cb) w).1 = Returned None →
                      es = pending (tar_NewReader (bzip2_NewReader file)))))
     ∧ (∀ r, gzip_NewReader file = inr r →
             ∃ es u, (WalkTarGz turns path (Some cb) w).2 = visited tarEntry w es u
                     ∧ es `sublist_of` pending (tar_NewReader r)
                     ∧ (leaves_reader cb →
                        es `prefix_of` pending (tar_NewReader r)
                        ∧ ((WalkTarGz turns path (Some cb) w).1 = Returned None →
                           es = pending (tar_NewReader r))))
     ∧ (∀ r, xz_NewReader file = inr r →
             ∃ es u, (WalkTarXz turns path (Some cb) w).2 = visited tarEntry w es u
                     ∧ es `sublist_of` pending (tar_NewReader r)
                     ∧ (leaves_reader cb →
                        es `prefix_of` pending (tar_NewReader r)
                        ∧ ((WalkTarXz turns path (Some cb) w).1 = Returned None →
                           es = pending (tar_NewReader r)))))
  ∧ (∀ (cb : ZipCallback) files,
       zip_readDirectory file = inr files →
       ∃ es u, (WalkZip path (Some cb) w).2 = visited zipEntry w es u
               ∧ es `prefix_of` files
               ∧ ((WalkZip path (Some cb) w).1 = None → es = files)).
Proof.
  intros Hopen. split.
  - intros cb turns Ha. split; [|split; [|split]].
    + rewrite (WalkTar_readTar _ _ _ _ _ _ _ Hopen). by apply readTar_order.
    + rewrite (WalkTarBzip2_readTar _ _ _ _ _ _ _ _ Hopen). by apply readTar_order.
    + intros r Hr. rewrite (WalkTarGz_readTar _ _ _ _ _ _ _ _ _ Hopen Hr).
      by apply readTar_order.
    + intros r Hr. rewrite (WalkTarXz_readTar _ _ _ _ _ _ _ _ _ Hopen Hr).
      by apply readTar_order.
  - intros cb files Hd. rewrite (WalkZip_WalkZip_range _ _ _ _ _ Hopen Hd).
    apply WalkZip_range_prefix.
Qed.

Lemma readTar_nil_iff (cb : TarCallback) reader w :
  (∃ turns, (readTar turns reader (Some cb) w).1.1 = Returned None)
  ↔ ∃ k es r1 u1, handed cb k reader (user w) = Some (es, r1, u1)
                  ∧ pending r1 = [] ∧ final r1 = io_EOF.
Proof.
  split.
  - intros [turns Hr].
    destruct (readTar_outcome cb turns reader w)
      as [(es & r1 & u1 & Hk & Heq)
         | [(k & es & r1 & u1 & Hlt & Hk & Hnil & Heq)
           | (k & pre & r1 & u1 & h & r1' & r2 & u2 & e & Hlt & Hk & Hn & Hcb & Heq)]];
      rewrite Heq in Hr; cbn [fst snd] in Hr; [done| |done].
    exists k, es, r1, u1. split; [done|]. split; [done|].
    unfold at_end in Hr. by case_decide.
  - intros (k & es & r1 & u1 & Hk & Hnil & Hfin). exists (S k).
    rewrite (readTar_complete _ _ _ _ _ _ _ _ Hk Hnil) by lia. cbn [fst].
    unfold at_end. by rewrite decide_True.
Qed.

Lemma WalkZip_range_nil_iff (cb : ZipCallback) files w :
  (WalkZip_range files (Some cb) w).1 = None
  ↔ ∃ u', thread cb files (user w) = Some u'.
Proof.
  destruct (WalkZip_range_outcome cb files w)
    as [(u' & Hth & ->) | (pre & h & post & u1 & u2 & e & Heq & Hpre & Hh & ->)]; simpl.
  - split; [eauto | done].
  - split; [done|]. intros [u' Hth]. rewrite Heq in Hth.
    clear Heq. revert Hth Hpre. generalize (user w). induction pre as [|x pre IH]; intros u; simpl.
    + intros Hth [= ->]. by rewrite Hh in Hth.
    + destruct (cb x u) as [u'' [err|]]; [done|]. apply IH.
Qed.

(** Property X12.  When a walker returns [nil].  A tar walker called with
    a callback returns [nil], in some turn of its loop, exactly when the
    file opened, the decoder (if the format has one that can fail) was
    built, the callback returned [nil] on every entry the loop handed to
    it, and the reader, as the callback left it, had no header left and
    ended on [io.EOF].  [WalkZip] returns [nil] exactly when the file
    opened, its directory was read, and the callback returned [nil] on
    every entry. *)
Theorem walk_returns_nil path w :
  (∀ cb : TarCallback,
     ((∃ turns, (WalkTar turns path (Some cb) w).1 = Returned None)
      ↔ ∃ file, os_Open (user w) path = inr file
                ∧ ∃ k es r1 u1,
                    handed cb k (tar_NewReader file) (user w) = Some (es, r1, u1)
                    ∧ pending r1 = [] ∧ final r1 = io_EOF)
     ∧ ((∃ turns, (WalkTarBzip2 turns path (Some cb) w).1 = Returned None)
        ↔ ∃ file, os_Open (user w) path = inr file
                  ∧ ∃ k es r1 u1,
                      handed cb k (tar_NewReader (bzip2_NewReader file)) (user w)
                      = Some (es, r1, u1)
                      ∧ pending r1 = [] ∧ final r1 = io_EOF)
     ∧ ((∃ turns, (WalkTarGz turns path (Some cb) w).1 = Returned None)
        ↔ ∃ file r, os_Open (user w) path = inr file ∧ gzip_NewReader file = inr r
                    ∧ ∃ k es r1 u1,
                        handed cb k (tar_NewReader r) (user w) = Some (es, r1, u1)
                        ∧ pending r1 = [] ∧ final r1 = io_EOF)
     ∧ ((∃ turns, (WalkTarXz turns path (Some cb) w).1 = Returned None)
        ↔ ∃ file r, os_Open (user w) path = inr file ∧ xz_NewReader file = inr r
                    ∧ ∃ k es r1 u1,
                        handed cb k (tar_NewReader r) (user w) = Some (es, r1, u1)
                        ∧ pending r1 = [] ∧ final r1 = io_EOF))
  ∧ (∀ cb : ZipCallback,
       (WalkZip path (Some cb) w).1 = None
       ↔ ∃ file files, os_Open (user w) path = inr file
                       ∧ zip_readDirectory file = inr files
                       ∧ ∃ u', thread cb files (user w) = Some u').
Proof.
  split.
  - intros cb. split; [|split; [|split]].
    + destruct (os_Open (user w) path) as [err|file] eqn:Hopen.
      * split; [intros [turns Hr]; revert Hr; walk; by rewrite Hopen
               | by intros (? & ? & _)].
      * setoid_rewrite (WalkTar_readTar _ _ _ _ _ _ _ Hopen). cbn [fst].
        rewrite readTar_nil_iff.
        split; [intros ?; by exists file | by intros (? & [= <-] & ?)].
    + destruct (os_Open (user w) path) as [err|file] eqn:Hopen.
      * split; [intros [turns Hr]; revert Hr; walk; by rewrite Hopen
               | by intros (? & ? & _)].
      * setoid_rewrite (WalkTarBzip2_readTar _ _ _ _ _ _ _ _ Hopen). cbn [fst].
        rewrite readTar_nil_iff.
        split; [intros ?; by exists file | by intros (? & [= <-] & ?)].
    + destruct (os_Open (user w) path) as [err|file] eqn:Hopen.
      * split; [intros [turns Hr]; revert Hr; walk; by rewrite Hopen
               | by intros (? & ? & ? & _)].
      * destruct (gzip_NewReader file) as [err|r] eqn:Hr.
        -- split; [intros [turns Hres]; revert Hres; walk; by rewrite Hopen, Hr|].
           intros (? & ? & [= <-] & Hr' & _). by rewrite Hr in Hr'.
        -- setoid_rewrite (WalkTarGz_readTar _ _ _ _ _ _ _ _ _ Hopen Hr). cbn [fst].
           rewrite readTar_nil_iff.
           split; [intros ?; by exists file, r|].
           intros (? & ? & [= <-] & Hr' & ?). rewrite Hr in Hr'. by simplify_eq.
    + destruct (os_Open (user w) path) as [err|file] eqn:Hopen.
      * split; [intros [turns Hr]; revert Hr; walk; by rewrite Hopen
               | by intros (? & ? & ? & _)].
      * destruct (xz_NewReader file) as [err|r] eqn:Hr.
        -- split; [intros [turns Hres]; revert Hres; walk; by rewrite Hopen, Hr|].
           intros (? & ? & [= <-] & Hr' & _). by rewrite Hr in Hr'.
        -- setoid_rewrite (WalkTarXz_readTar _ _ _ _ _ _ _ _ _ Hopen Hr). cbn [fst].
           rewrite readTar_nil_iff.
           split; [intros ?; by exists file, r|].
           intros (? & ? & [= <-] & Hr' & ?). rewrite Hr in Hr'. by simplify_eq.
  - intros cb. destruct (os_Open (user w) path) as [err|file] eqn:Hopen.
    + split; [walk; by rewrite Hopen | by intros (? & ? & ? & _)].
    + destruct (zip_readDirectory file) as [err|files] eqn:Hd.
      * split; [walk; by rewrite Hopen, Hd|].
        intros (? & ? & [= <-] & Hd' & _). by rewrite Hd in Hd'.
      * rewrite (WalkZip_WalkZip_range _ _ _ _ _ Hopen Hd), WalkZip_range_nil_iff.
        split; [intros ?; by exists file, files|].
        intros (? & ? & [= <-] & Hd' & ?). rewrite Hd in Hd'. by simplify_eq.
Qed.

(** Where the error [readTar] returns comes from, whatever the callback. *)
Lemma readTar_error (cb : TarCallback) turns reader w e :
  (readTar turns reader (Some cb) w).1.1 = Returned (Some e) →
  ∃ k es r1 u1, (k < turns)%nat ∧ handed cb k reader (user w) = Some (es, r1, u1)
    ∧ ((pending r1 = [] ∧ e = final r1 ∧ e ≠ io_EOF)
       ∨ ∃ h r1', Next r1 = (inr h, r1') ∧ (cb r1' h u1).2 = Some e).
Proof.
  destruct (readTar_outcome cb turns reader w)
    as [(es & r1 & u1 & Hk & ->)
       | [(k & es & r1 & u1 & Hlt & Hk & Hnil & ->)
         | (k & pre & r1 & u1 & h & r1' & r2 & u2 & e' & Hlt & Hk & Hn & Hcb & ->)]];
    cbn [fst snd]; [done|..].
  - unfold at_end. case_decide; [done|]. intros [= <-].
    exists k, es, r1, u1. split; [done|]. split; [done|]. by left.
  - intros [= <-]. exists k, pre, r1, u1. split; [done|]. split; [done|]. right.
    exists h, r1'. by rewrite Hcb.
Qed.

Lemma readTar_error_advances (cb : TarCallback) turns reader w e :
  advances_reader cb →
  (readTar turns reader (Some cb) w).1.1 = Returned (Some e) →
  (e = final reader ∧ e ≠ io_EOF)
  ∨ ∃ r h u, h ∈ pending reader ∧ (cb r h u).2 = Some e.
Proof.
  intros Ha Hr.
  destruct (readTar_error _ _ _ _ _ Hr)
    as (k & es & r1 & u1 & _ & Hk & [(_ & -> & Hne) | (h & r1' & Hn & Hcb)]);
    destruct (handed_advances _ _ _ _ _ _ _ Ha Hk) as (n & Hpn & Hfn & _).
  - left. rewrite Hfn in Hne. by rewrite Hfn.
  - right. exists r1', h, u1. split; [|done].
    apply Next_inr in Hn as [Hp1 _]. rewrite Hpn in Hp1.
    rewrite <-(take_drop n (pending reader)), Hp1.
    apply elem_of_app. right. left.
Qed.

Lemma WalkZip_range_error (cb : ZipCallback) files w e :
  (WalkZip_range files (Some cb) w).1 = Some e →
  ∃ z u, z ∈ files ∧ (cb z u).2 = Some e.
Proof.
  destruct (WalkZip_range_outcome cb files w)
    as [(u' & Hth & ->) | (pre & h & post & u1 & u2 & e' & Heq & Hpre & Hh & ->)]; simpl.
  - done.
  - intros [= <-]. exists h, u1. rewrite Heq, Hh. split; [|done].
    apply elem_of_app. right. left.
Qed.

(** Property X13.  Where the error of a walk comes from: once the file is
    open (and the decoder built), an error a walker returns is the error
    on which the tar reader ended, which is not [io.EOF], or an error the
    callback returned on an entry of the archive; the walker passes it on
    as it is.  For a tar archive this is so for every callback that does
    no more to the reader than call [Next] on it; whatever the callback
    does, the error is the one [Next] returned on the reader as the
    callback left it, or the one the callback returned on the header
    [Next] had just returned. *)
Theorem walk_error_source path w file e :
  os_Open (user w) path = inr file →
  (∀ (cb : TarCallback) turns, advances_reader cb →
     ((WalkTar turns path (Some cb) w).1 = Returned (Some e) →
      (e = final (tar_NewReader file) ∧ e ≠ io_EOF)
      ∨ ∃ r h u, h ∈ pending (tar_NewReader file) ∧ (cb r h u).2 = Some e)
     ∧ ((WalkTarBzip2 turns path (Some cb) w).1 = Returned (Some e) →
        (e = final (tar_NewReader (bzip2_NewReader file)) ∧ e ≠ io_EOF)
        ∨ ∃ r h u, h ∈ pending (tar_NewReader (bzip2_NewReader file))
                   ∧ (cb r h u).2 = Some e)
     ∧ (∀ r, gzip_NewReader file = inr r →
             (WalkTarGz turns path (Some cb) w).1 = Returned (Some e) →
             (e = final (tar_NewReader r) ∧ e ≠ io_EOF)
             ∨ ∃ r' h u, h ∈ pending (tar_NewReader r) ∧ (cb r' h u).2 = Some e)
     ∧ (∀ r, xz_NewReader file = inr r →
             (WalkTarXz turns path (Some cb) w).1 = Returned (Some e) →
             (e = final (tar_NewReader r) ∧ e ≠ io_EOF)
             ∨ ∃ r' h u, h ∈ pending (tar_NewReader r) ∧ (cb r' h u).2 = Some e))
  ∧ (∀ (cb : TarCallback) turns reader,
       (readTar turns reader (Some cb) w).1.1 = Returned (Some e) →
       ∃ k es r1 u1, (k < turns)%nat ∧ handed cb k reader (user w) = Some (es, r1, u1)
         ∧ ((pending r1 = [] ∧ e = final r1 ∧ e ≠ io_EOF)
            ∨ ∃ h r1', Next r1 = (inr h, r1') ∧ (cb r1' h u1).2 = Some e))
  ∧ (∀ (cb : ZipCallback) files,
       zip_readDirectory file = inr files →
       (WalkZip path (Some cb) w).1 = Some e →
       ∃ z u, z ∈ files ∧ (cb z u).2 = Some e).
Proof.
  intros Hopen. split; [|split].
  - intros cb turns Ha. split; [|split; [|split]].
    + rewrite (WalkTar_readTar _ _ _ _ _ _ _ Hopen). by apply readTar_error_advances.
    + rewrite (WalkTarBzip2_readTar _ _ _ _ _ _ _ _ Hopen). by apply readTar_error_advances.
    + intros r Hr. rewrite (WalkTarGz_readTar _ _ _ _ _ _ _ _ _ Hopen Hr).
      by apply readTar_error_advances.
    + intros r Hr. rewrite (WalkTarXz_readTar _ _ _ _ _ _ _ _ _ Hopen Hr).
      by apply readTar_error_advances.
  - intros cb turns reader. apply readTar_error.
  - intros cb files Hd. rewrite (WalkZip_WalkZip_range _ _ _ _ _ Hopen Hd).
    apply WalkZip_range_error.
Qed.

(** Property X14.  A file that opens and is not a zip archive:
    [zip.OpenReader] fails on its directory, and [WalkZip] returns the
    error built from [fmtErrArchiveOpen] and the cause, the one it returns
    for a path that cannot be opened, without invoking the callback. *)
Theorem WalkZip_not_a_zip path w file cause (cb : option ZipCallback) :
  os_Open (user w) path = inr file → zip_readDirectory file = inl cause →
  WalkZip path cb w = (Some (fmt_Errorf fmtErrArchiveOpen cause), w)
  ∧ Error (fmt_Errorf fmtErrArchiveOpen cause)
    = "archive: failed to open archive: " +:+ Error cause
  ∧ classify (fmt_Errorf fmtErrArchiveOpen cause) = OpenFailure.
Proof.
  intros Hopen Hd. split; [walk; by rewrite Hopen, Hd|].
  split; [apply Sprintf_fmtErrArchiveOpen | apply classify_open].
Qed.

End MoreWalkers.

(** Property X15.  The errors the package builds: each holds the text of its format
    followed by the message of the cause, is told from the two others by
    that text, and is a value of its own, equal neither to its cause nor
    to [io.EOF] nor to [ErrUnknownType], whose message none of the three
    texts starts. *)
Theorem built_errors cause :
  Error (fmt_Errorf fmtErrArchiveOpen cause) = "archive: failed to open archive: " +:+ Error cause
  ∧ Error (fmt_Errorf fmtErrNewGzReader cause) = "archive: failed to gz reader: " +:+ Error cause
  ∧ Error (fmt_Errorf fmtErrNewXzReader cause) = "archive: failed to xz reader: " +:+ Error cause
  ∧ (∀ fmt, fmt ∈ [fmtErrArchiveOpen; fmtErrNewGzReader; fmtErrNewXzReader] →
            fmt_Errorf fmt cause ∉ [cause; io_EOF; ErrUnknownType])
  ∧ Error ErrUnknownType = "archive: unable to determine type"
  ∧ classify ErrUnknownType = OtherError.
Proof.
  split; [apply Sprintf_fmtErrArchiveOpen|].
  split; [apply Sprintf_fmtErrNewGzReader|].
  split; [apply Sprintf_fmtErrNewXzReader|].
  split; [|done].
  intros fmt Hfmt. rewrite !elem_of_cons, elem_of_nil in Hfmt.
  rewrite !not_elem_of_cons. split; [|by repeat split; try apply not_elem_of_nil].
  intros Heq. apply (f_equal (λ e, String.length (Error e))) in Heq.
  destruct Hfmt as [-> | [-> | [-> | []]]].
  - rewrite (length_Error_fmt_Errorf _ "archive: failed to open archive: ") in Heq;
      [simpl in Heq; lia | apply Sprintf_fmtErrArchiveOpen].
  - rewrite (length_Error_fmt_Errorf _ "archive: failed to gz reader: ") in Heq;
      [simpl in Heq; lia | apply Sprintf_fmtErrNewGzReader].
  - rewrite (length_Error_fmt_Errorf _ "archive: failed to xz reader: ") in Heq;
      [simpl in Heq; lia | apply Sprintf_fmtErrNewXzReader].
Qed.

(** ** The further properties on the sample environment *)

Section MoreOnSample.

Import Sample.

Local Abbreviation DetermineType := (@DetermineType MapToLower nat string string).
Local Abbreviation WalkTar := (WalkTar os_Open tar_NewReader).
Local Abbreviation WalkTarBzip2 := (WalkTarBzip2 os_Open bzip2_NewReader tar_NewReader).
Local Abbreviation WalkTarGz := (WalkTarGz os_Open gzip_NewReader tar_NewReader).
Local Abbreviation WalkTarXz := (WalkTarXz os_Open xz_NewReader tar_NewReader).
Local Abbreviation WalkZip := (WalkZip os_Open zip_readDirectory).

Lemma DetermineType_first_match_witness :
  map_Forall (λ T info, plain_entry (T, info)) (typeInfoMap w1)
  ∧ range_order descending (typeInfoMap w1)
  ∧ DetermineType descending "Backup.RAR" w1 = (Some (7, None), w1).
Proof.
  assert (map_Forall (λ T info, plain_entry (T, info)) (typeInfoMap w1)) as Hp
    by (by apply (bool_decide_unpack _); vm_compute).
  assert (range_order descending (typeInfoMap w1)) as Hρ
    by (by apply (bool_decide_unpack _); vm_compute).
  split; [exact Hp|]. split; [exact Hρ|].
  apply (proj1 (proj2 (DetermineType_first_match MapToLower descending w1
                         "Backup.RAR" Hp Hρ))
           [(9, TypeInfo [".7z"; ".s7z"] "")] 7 (TypeInfo [".rar"] "") []).
  - by vm_compute.
  - repeat constructor.
  - by vm_compute.
Defined.

Lemma DetermineType_conflict_free_table_witness :
  map_Forall (λ T info, plain_entry (T, info)) (typeInfoMap w1)
  ∧ conflict_free (suffixes_of (map_to_list (typeInfoMap w1))) = true
  ∧ range_order ascending (typeInfoMap w1) ∧ range_order descending (typeInfoMap w1)
  ∧ DetermineType ascending "old.s7z" w1 = DetermineType descending "old.s7z" w1.
Proof.
  assert (map_Forall (λ T info, plain_entry (T, info)) (typeInfoMap w1)) as Hp
    by (by apply (bool_decide_unpack _); vm_compute).
  assert (conflict_free (suffixes_of (map_to_list (typeInfoMap w1))) = true) as Hcf
    by (by vm_compute).
  assert (range_order ascending (typeInfoMap w1)) as H1
    by (by apply (bool_decide_unpack _); vm_compute).
  assert (range_order descending (typeInfoMap w1)) as H2
    by (by apply (bool_decide_unpack _); vm_compute).
  split; [exact Hp|]. split; [exact Hcf|]. split; [exact H1|]. split; [exact H2|].
  exact (DetermineType_conflict_free_table MapToLower ascending descending w1
           "old.s7z" Hp Hcf H1 H2).
Defined.

Lemma DetermineType_result_witness :
  range_order descending (typeInfoMap w0) ∧ initialized w0
  ∧ ∃ T err, DetermineType descending "notes.txt" w0 = (Some (T, err), w0)
             ∧ ((err = None ∧ T ∈ declared_order ∧ String_ T ≠ "")
                ∨ (err = Some ErrUnknownType ∧ T = 0 ∧ String_ T = "")).
Proof.
  assert (range_order descending (typeInfoMap w0)) as Hρ
    by (by apply (bool_decide_unpack _); vm_compute).
  assert (initialized w0) as Hi by reflexivity.
  split; [exact Hρ|]. split; [exact Hi|].
  exact (proj1 (DetermineType_result MapToLower descending w0 Hρ Hi) "notes.txt").
Defined.

Lemma DetermineType_needs_extension_witness :
  range_order descending (typeInfoMap w0) ∧ initialized w0
  ∧ isASCII "Makefile" = true
  ∧ (hasDot "Makefile" = false ∨ (String.length "Makefile" < 4)%nat)
  ∧ DetermineType descending "Makefile" w0 = (Some (0, Some ErrUnknownType), w0).
Proof.
  assert (range_order descending (typeInfoMap w0)) as Hρ
    by (by apply (bool_decide_unpack _); vm_compute).
  assert (initialized w0) as Hi by reflexivity.
  assert (isASCII "Makefile" = true) as Ha by reflexivity.
  assert (hasDot "Makefile" = false ∨ (String.length "Makefile" < 4)%nat) as Hs
    by (left; reflexivity).
  split; [exact Hρ|]. split; [exact Hi|]. split; [exact Ha|]. split; [exact Hs|].
  exact (proj2 (DetermineType_needs_extension MapToLower descending w0 "Makefile" Hρ Hi)
           Ha Hs).
Defined.

Lemma DetermineType_prefix_witness :
  range_order ascending (typeInfoMap w0) ∧ range_order descending (typeInfoMap w0)
  ∧ initialized w0
  ∧ isASCII "/usr/local/bin/" = true ∧ isASCII "foo.TXZ" = true
  ∧ DetermineType ascending "foo.TXZ" w0 = (Some (TarXz, None), w0)
  ∧ DetermineType descending "/usr/local/bin/foo.TXZ" w0 = (Some (TarXz, None), w0).
Proof.
  assert (range_order ascending (typeInfoMap w0)) as H1
    by (by apply (bool_decide_unpack _); vm_compute).
  assert (range_order descending (typeInfoMap w0)) as H2
    by (by apply (bool_decide_unpack _); vm_compute).
  assert (initialized w0) as Hi by reflexivity.
  assert (isASCII "/usr/local/bin/" = true) as Hp by reflexivity.
  assert (isASCII "foo.TXZ" = true) as Hf by reflexivity.
  assert (DetermineType ascending "foo.TXZ" w0 = (Some (TarXz, None), w0)) as Hr
    by (by vm_compute).
  split; [exact H1|]. split; [exact H2|]. split; [exact Hi|]. split; [exact Hp|].
  split; [exact Hf|]. split; [exact Hr|].
  exact (DetermineType_prefix MapToLower ascending descending w0 "/usr/local/bin/"
           "foo.TXZ" TarXz H1 H2 Hi Hp Hf Hr).
Defined.

Lemma complete_walk_witness :
  os_Open (user w0) "testdata/sample.tar.gz" = inr (Stream_ TarGz sample_names io_EOF)
  ∧ gzip_NewReader (Stream_ TarGz sample_names io_EOF)
    = inr (Stream_ TarGz sample_names io_EOF)
  ∧ pending (TarReader (Header := string) [] io_EOF) = []
  ∧ (3 < 4)%nat
  ∧ handed (on_header count) 3 (tar_NewReader (Stream_ TarGz sample_names io_EOF)) (user w0)
    = Some (sample_names, TarReader [] io_EOF, 3%nat)
  ∧ WalkTarGz 4 "testdata/sample.tar.gz" (Some (on_header count)) w0
    = (Returned None, World (typeInfoMap w0) 3%nat (tarEntry <$> sample_names)).
Proof.
  assert (os_Open (user w0) "testdata/sample.tar.gz"
          = inr (Stream_ TarGz sample_names io_EOF)) as Hopen by reflexivity.
  assert (gzip_NewReader (Stream_ TarGz sample_names io_EOF)
          = inr (Stream_ TarGz sample_names io_EOF)) as Hgz by reflexivity.
  assert (pending (TarReader (Header := string) [] io_EOF) = []) as Hnil by reflexivity.
  assert (3 < 4)%nat as Hlt by lia.
  assert (handed (on_header count) 3 (tar_NewReader (Stream_ TarGz sample_names io_EOF))
            (user w0)
          = Some (sample_names, TarReader [] io_EOF, 3%nat)) as Hk by reflexivity.
  split; [exact Hopen|]. split; [exact Hgz|]. split; [exact Hnil|]. split; [exact Hlt|].
  split; [exact Hk|].
  destruct (complete_walk os_Open gzip_NewReader xz_NewReader bzip2_NewReader
              zip_readDirectory tar_NewReader "testdata/sample.tar.gz" w0 _ 3%nat Hopen)
    as [Htar _].
  destruct (Htar (on_header count) 3%nat 4%nat sample_names (TarReader [] io_EOF) Hnil Hlt)
    as (_ & _ & Hgzw & _).
  exact (Hgzw _ Hgz Hk).
Defined.

Lemma walk_in_archive_order_witness :
  os_Open (user w0) "testdata/sample.tar.gz" = inr (Stream_ TarGz sample_names io_EOF)
  ∧ gzip_NewReader (Stream_ TarGz sample_names io_EOF)
    = inr (Stream_ TarGz sample_names io_EOF)
  ∧ advances_reader skipping
  ∧ ∃ es u, (WalkTarGz 7 "testdata/sample.tar.gz" (Some skipping) w0).2
            = visited tarEntry w0 es u
            ∧ es `sublist_of` sample_names
            ∧ (leaves_reader skipping →
               es `prefix_of` sample_names
               ∧ ((WalkTarGz 7 "testdata/sample.tar.gz" (Some skipping) w0).1
                  = Returned None → es = sample_names)).
Proof.
  assert (os_Open (user w0) "testdata/sample.tar.gz"
          = inr (Stream_ TarGz sample_names io_EOF)) as Hopen by reflexivity.
  assert (gzip_NewReader (Stream_ TarGz sample_names io_EOF)
          = inr (Stream_ TarGz sample_names io_EOF)) as Hgz by reflexivity.
  assert (advances_reader skipping) as Ha by (intros r h u; exists 1%nat; reflexivity).
  split; [exact Hopen|]. split; [exact Hgz|]. split; [exact Ha|].
  destruct (walk_in_archive_order os_Open gzip_NewReader xz_NewReader bzip2_NewReader
              zip_readDirectory tar_NewReader "testdata/sample.tar.gz" w0 _ Hopen)
    as [Htar _].
  destruct (Htar skipping 7%nat Ha) as (_ & _ & Hgzw & _).
  exact (Hgzw _ Hgz).
Defined.

Lemma walk_error_source_witness :
  os_Open (user w0) "testdata/sample.tar" = inr (Stream_ Tar (reverse sample_names) io_EOF)
  ∧ advances_reader (on_header count)
  ∧ (WalkTarBzip2 2 "testdata/sample.tar" (Some (on_header count)) w0).1
    = Returned (Some (foreign 6 "bzip2 data invalid: bad magic value"))
  ∧ ((foreign 6 "bzip2 data invalid: bad magic value"
      = final (tar_NewReader (bzip2_NewReader (Stream_ Tar (reverse sample_names) io_EOF)))
      ∧ foreign 6 "bzip2 data invalid: bad magic value" ≠ io_EOF)
     ∨ ∃ r h u, h ∈ pending (tar_NewReader
                               (bzip2_NewReader (Stream_ Tar (reverse sample_names) io_EOF)))
                ∧ (on_header count r h u).2
                  = Some (foreign 6 "bzip2 data invalid: bad magic value")).
Proof.
  assert (os_Open (user w0) "testdata/sample.tar"
          = inr (Stream_ Tar (reverse sample_names) io_EOF)) as Hopen by reflexivity.
  assert (advances_reader (on_header count)) as Ha
    by (intros r h u; exists 0%nat; reflexivity).
  assert ((WalkTarBzip2 2 "testdata/sample.tar" (Some (on_header count)) w0).1
          = Returned (Some (foreign 6 "bzip2 data invalid: bad magic value")))
    as Hres by reflexivity.
  split; [exact Hopen|]. split; [exact Ha|]. split; [exact Hres|].
  destruct (walk_error_source os_Open gzip_NewReader xz_NewReader bzip2_NewReader
              zip_readDirectory tar_NewReader "testdata/sample.tar" w0 _
              (foreign 6 "bzip2 data invalid: bad magic value") Hopen) as [Htar _].
  destruct (Htar (on_header count) 2%nat Ha) as (_ & Hbz & _).
  exact (Hbz Hres).
Defined.

Lemma WalkZip_not_a_zip_witness :
  os_Open (user w0) "testdata/sample.tar" = inr (Stream_ Tar (reverse sample_names) io_EOF)
  ∧ zip_readDirectory (Stream_ Tar (reverse sample_names) io_EOF)
    = inl (foreign 7 "zip: not a valid zip file")
  ∧ WalkZip "testdata/sample.tar" (Some count) w0
    = (Some (errorString "archive: failed to open archive: zip: not a valid zip file"), w0).
Proof.
  assert (os_Open (user w0) "testdata/sample.tar"
          = inr (Stream_ Tar (reverse sample_names) io_EOF)) as Hopen by reflexivity.
  assert (zip_readDirectory (Stream_ Tar (reverse sample_names) io_EOF)
          = inl (foreign 7 "zip: not a valid zip file")) as Hd by reflexivity.
  split; [exact Hopen|]. split; [exact Hd|].
  exact (proj1 (WalkZip_not_a_zip os_Open zip_readDirectory "testdata/sample.tar" w0 _
                  (foreign 7 "zip: not a valid zip file") (Some count) Hopen Hd)).
Defined.

Lemma DetermineType_order_matters_witness :
  map_Forall (λ T info, plain_entry (T, info)) (typeInfoMap w2)
  ∧ typeInfoMap w2 !! 7 = Some (TypeInfo [".gz"] "")
  ∧ typeInfoMap w2 !! 9 = Some (TypeInfo [".tar.gz"] "")
  ∧ matches (ToLower MapToLower "a.tar.gz") (TypeInfo [".gz"] "") = true
  ∧ matches (ToLower MapToLower "a.tar.gz") (TypeInfo [".tar.gz"] "") = true
  ∧ ∃ ρ1 ρ2, range_order ρ1 (typeInfoMap w2) ∧ range_order ρ2 (typeInfoMap w2)
             ∧ DetermineType ρ1 "a.tar.gz" w2 = (Some (7, None), w2)
             ∧ DetermineType ρ2 "a.tar.gz" w2 = (Some (9, None), w2).
Proof.
  assert (map_Forall (λ T info, plain_entry (T, info)) (typeInfoMap w2)) as Hp
    by (by apply (bool_decide_unpack _); vm_compute).
  assert (typeInfoMap w2 !! 7 = Some (TypeInfo [".gz"] "")) as H1 by reflexivity.
  assert (typeInfoMap w2 !! 9 = Some (TypeInfo [".tar.gz"] "")) as H2 by reflexivity.
  assert (matches (ToLower MapToLower "a.tar.gz") (TypeInfo [".gz"] "") = true)
    as Hm1 by reflexivity.
  assert (matches (ToLower MapToLower "a.tar.gz") (TypeInfo [".tar.gz"] "") = true)
    as Hm2 by reflexivity.
  split; [exact Hp|]. split; [exact H1|]. split; [exact H2|]. split; [exact Hm1|].
  split; [exact Hm2|].
  exact (DetermineType_order_matters MapToLower w2 "a.tar.gz" 7 _ 9 _ Hp H1 H2 Hm1 Hm2).
Defined.
End MoreOnSample.
